(** * The filter-condition merge engine of automaton-js

    A shallow embedding of [simplifyCondition] and [updateComponentCondition]
    together with the parts of FilterDSL they use.  Condition nodes are
    JavaScript objects: the engine hands out references, callers compare them
    with [===], and the engine is expected not to write to the objects it was
    given.  The embedding therefore keeps an explicit object store and passes
    it through every operation.

    A reference that leads to no object of the store stands for a value that
    is no node: reading its [type] gives none of the node tags. *)

From stdpp Require Import gmap strings list fin_maps option pretty.

Open Scope string_scope.
Open Scope list_scope.

(** ** Node objects and the store *)

(** An object reference. *)
Definition loc := positive.

(** What a variable or a field of node type holds: [null] or a reference. *)
Inductive val :=
  | VNull
  | VRef (l : loc).

(** Scalar literals carried by Value and Values leaves. *)
Inductive scalar :=
  | SString (s : string)
  | SInt (z : Z)
  | SBoolean (b : bool).

(** The objects of the condition tree, one constructor per [Type] tag.  The
    operand array of a condition is kept inside the condition object; the
    engine only reads [operands.length] and [operands[i]] of an array it was
    given and assigns arrays it has built itself. *)
Inductive node :=
  | Field (name : string)
  | Value (scalarType : string) (value : scalar) (name : option string)
  | Values (scalarType : string) (values : list scalar)
  | Condition (name : string) (operands : list loc)
  | Component (id : option string) (condition : val).

Abbreviation heap := (gmap loc node).

Global Instance val_eq_dec : EqDecision val.
Proof. solve_decision. Defined.

Global Instance scalar_eq_dec : EqDecision scalar.
Proof. solve_decision. Defined.

Global Instance node_eq_dec : EqDecision node.
Proof. solve_decision. Defined.

(** [new] of an object: the next unused reference and the extended store. *)
Definition alloc (h : heap) (o : node) : loc * heap :=
  let l := fresh (dom h) in (l, <[l := o]> h).

(** Dereferencing; [null] and references to nothing give no object. *)
Definition deref (h : heap) (v : val) : option node :=
  match v with
  | VNull => None
  | VRef l => h !! l
  end.

(** ** FilterDSL *)

(** Modelled from the spec: [component(id)] of the module [../FilterDSL],
    which is not among the sources: a Component marker node with
    [condition: null] initially. *)
Definition component (h : heap) (id : option string) : loc * heap :=
  alloc h (Component id VNull).

(** Modelled from the spec: [condition(name)] of the module [../FilterDSL],
    which is not among the sources: a Condition node whose operands are left
    for the caller to assign (here: no operands yet). *)
Definition condition (h : heap) (name : string) : loc * heap :=
  alloc h (Condition name []).

(** Modelled from the spec: [isLogicalCondition(node)] of the module
    [../FilterDSL], which is not among the sources: true iff node is a
    Condition with name "and" or "or". *)
Definition isLogicalCondition (h : heap) (v : val) : bool :=
  match deref h v with
  | Some (Condition name _) => bool_decide (name = "and") || bool_decide (name = "or")
  | _ => false
  end.

(** [o.condition = c]: a field write; it only has an effect on a Component. *)
Definition set_condition (h : heap) (l : loc) (c : val) : heap :=
  match h !! l with
  | Some (Component id _) => <[l := Component id c]> h
  | _ => h
  end.

(** [o.operands = ops]. *)
Definition set_operands (h : heap) (l : loc) (ops : list loc) : heap :=
  match h !! l with
  | Some (Condition name _) => <[l := Condition name ops]> h
  | _ => h
  end.

(** [operand.type !== Type.COMPONENT || operand.id !== null], negated. *)
Definition is_null_component (h : heap) (l : loc) : bool :=
  match h !! l with
  | Some (Component None _) => true
  | _ => false
  end.

(** ** simplifyCondition *)

(** The loop of [simplifyCondition]: [false] as soon as an operand is no
    Component or has an id, [true] when the operands are used up. *)
Fixpoint all_null_components (h : heap) (operands : list loc) : bool :=
  match operands with
  | [] => true
  | operand :: rest =>
      if is_null_component h operand then all_null_components h rest else false
  end.

Definition simplifyCondition (h : heap) (cond : val) : val :=
  match deref h cond with
  | Some (Condition name operands) =>
      if bool_decide (name = "and") then
        if all_null_components h operands then VNull else cond
      else cond
  | _ => cond
  end.

(** ** updateComponentCondition *)

(** The two errors the engine throws, named after their messages. *)
Inductive error :=
  | InvalidCurrentCondition
  | InvalidComponentStructure.

Inductive outcome :=
  | Return (v : val)
  | Throw (e : error).

(** How the walk over the operands ends. *)
Inductive walk_result :=
  | Skip
  | Rebuilt (componentConditions : list loc) (found : bool)
  | Invalid.

Section Engine.

(** The module [./compareConditions] is not among the sources.  The engine
    is embedded over any comparator that reads the store and answers. *)
Variable compareConditions : heap → val → val → bool → bool.

(** The [for] loop over [operands], from index [i] on, with the array
    [componentConditions] and the flag [found] as they are on entry. *)
Fixpoint walk (h : heap) (operands : list loc) (newComponentNode : loc)
    (componentCondition : val) (componentId : option string)
    (compareUpdate : bool) (componentConditions : list loc) (found : bool)
    : walk_result :=
  match operands with
  | [] => Rebuilt componentConditions found
  | componentNode :: rest =>
      match h !! componentNode with
      | Some (Component id cond) =>
          if bool_decide (id = componentId) then
            if compareUpdate &&
               compareConditions h (simplifyCondition h cond)
                 (simplifyCondition h componentCondition) true
            then Skip
            else walk h rest newComponentNode componentCondition componentId
                   compareUpdate (componentConditions ++ [newComponentNode]) true
          else walk h rest newComponentNode componentCondition componentId
                 compareUpdate (componentConditions ++ [componentNode]) found
      | _ => Invalid
      end
  end.

Definition updateComponentCondition (h : heap) (compositeCondition : val)
    (componentCondition : val) (componentId : option string)
    (compareUpdate : bool) : outcome * heap :=
  let '(newComponentNode, h) := component h componentId in
  let h := set_condition h newComponentNode componentCondition in
  match compositeCondition with
  | VNull =>
      let '(newCondition, h) := condition h "and" in
      let h := set_operands h newCondition [newComponentNode] in
      (Return (VRef newCondition), h)
  | VRef c =>
      if negb (isLogicalCondition h compositeCondition) then
        (Throw InvalidCurrentCondition, h)
      else
        match h !! c with
        | Some (Condition name operands) =>
            match walk h operands newComponentNode componentCondition
                    componentId compareUpdate [] false with
            | Invalid => (Throw InvalidComponentStructure, h)
            | Skip => (Return compositeCondition, h)
            | Rebuilt componentConditions found =>
                let componentConditions :=
                  if found then componentConditions
                  else componentConditions ++ [newComponentNode] in
                let '(newCondition, h) := condition h name in
                let h := set_operands h newCondition componentConditions in
                (Return (VRef newCondition), h)
            end
        | _ =>
            (* not reached: [isLogicalCondition] has answered for a Condition *)
            (Throw InvalidCurrentCondition, h)
        end
  end.

End Engine.

(** ** Reading the store *)

(** The store right after [component(componentId)] and the assignment of
    [.condition] (the first two statements of [updateComponentCondition]);
    this is the store the comparator reads. *)
Definition marker_store (h : heap) (componentId : option string)
    (componentCondition : val) : heap :=
  set_condition (component h componentId).2 (component h componentId).1
    componentCondition.

(** The reference of the marker the engine creates in store [h]. *)
Definition new_marker (h : heap) : loc := fresh (dom h).

(** [o.type === Type.COMPONENT]. *)
Definition is_component (h : heap) (o : loc) : bool :=
  match h !! o with
  | Some (Component _ _) => true
  | _ => false
  end.

(** The id of a marker, if [o] is one. *)
Definition marker_id (h : heap) (o : loc) : option (option string) :=
  match h !! o with
  | Some (Component id _) => Some id
  | _ => None
  end.

(** An "and" whose operands are all markers without id: what the spec calls
    an "and" built entirely from anonymous placeholders. *)
Definition all_anonymous_and (h : heap) (n : val) : Prop :=
  ∃ l operands,
    n = VRef l ∧ h !! l = Some (Condition "and" operands) ∧
    Forall (λ o, ∃ c, h !! o = Some (Component None c)) operands.

(** ** Notions used in the statements *)

(** The operand the rebuilt array holds in the place of [o]. *)
Definition replace_marker (h : heap) (componentId : option string)
    (newComponentNode : loc) (o : loc) : loc :=
  if bool_decide (marker_id h o = Some componentId) then newComponentNode else o.

(** Whether some operand is a marker with the given id. *)
Definition has_marker (h : heap) (componentId : option string)
    (operands : list loc) : bool :=
  existsb (λ o, bool_decide (marker_id h o = Some componentId)) operands.

(** The comparison the engine makes for a marker whose condition is [c]. *)
Definition same_condition (cmp : heap → val → val → bool → bool) (h : heap)
    (c p : val) : bool :=
  cmp h (simplifyCondition h c) (simplifyCondition h p) true.

(** The store in which the rebuilt condition is created. *)
Definition rebuilt_store (h : heap) (name : string) (ops : list loc) : heap :=
  <[fresh (dom h) := Condition name ops]> h.

(** A composite as the engine accepts it: a logical Condition all of whose
    operands are Component markers. *)
Definition composite (h : heap) (c : loc) (name : string) (ops : list loc) : Prop :=
  h !! c = Some (Condition name ops) ∧ (name = "and" ∨ name = "or") ∧
  Forall (λ o, is_component h o = true) ops.

(** The invariant of the spec: [null], or a Condition named "and" whose
    operands are all Component markers with pairwise distinct ids. *)
Definition composite_invariant (h : heap) (v : val) : Prop :=
  match v with
  | VNull => True
  | VRef c =>
      ∃ ops ids,
        h !! c = Some (Condition "and" ops) ∧
        Forall2 (λ o id, ∃ cond, h !! o = Some (Component id cond)) ops ids ∧
        NoDup ids
  end.

(** [o] is an object of the store, but no Component marker. *)
Definition non_component (h : heap) (o : loc) : bool :=
  match h !! o with
  | Some (Component _ _) => false
  | Some _ => true
  | None => false
  end.

(** [null] or a composite. *)
Definition is_composite (h : heap) (C : val) : Prop :=
  match C with
  | VNull => True
  | VRef c => ∃ name ops, composite h c name ops
  end.

(** ** The comparator of the spec *)

(** Pairwise comparison of two operand arrays of the same length. *)
Fixpoint forall2b {A : Type} (f : A → A → bool) (xs ys : list A) : bool :=
  match xs, ys with
  | [], [] => true
  | x :: xs, y :: ys => f x y && forall2b f xs ys
  | _, _ => false
  end.

(** Modelled from the spec: [compareConditions(a, b, treatEmptyAsEqual)] of
    the module [./compareConditions], which is not among the sources.  Two nulls are
    equal; a null and a non-null are equal when [treatEmptyAsEqual] is set and
    the non-null side simplifies to null; two Conditions are equal when they
    have the same name, the same number of operands and pairwise equal
    operands in order; two Component markers when they have the same id and
    equal conditions; two Value nodes when they have the same scalar type and
    value; two Values nodes when they have the same scalar type and the same
    values in order; nodes of different kinds are not equal.  The spec gives
    no rule for two Field nodes; its scenario of merging the same predicate
    over a field twice needs them equal, so they are compared by name.  The
    descent through the references is bounded by [fuel]; without fuel the
    answer is [false]. *)
Fixpoint compareConditionsSpec (fuel : nat) (h : heap) (a b : val)
    (treatEmptyAsEqual : bool) : bool :=
  match fuel with
  | 0 => false
  | S fuel =>
      match a, b with
      | VNull, VNull => true
      | VNull, VRef _ =>
          treatEmptyAsEqual && bool_decide (simplifyCondition h b = VNull)
      | VRef _, VNull =>
          treatEmptyAsEqual && bool_decide (simplifyCondition h a = VNull)
      | VRef la, VRef lb =>
          match h !! la, h !! lb with
          | Some (Condition na oa), Some (Condition nb ob) =>
              bool_decide (na = nb) && bool_decide (length oa = length ob) &&
              forall2b
                (λ x y, compareConditionsSpec fuel h (VRef x) (VRef y) treatEmptyAsEqual)
                oa ob
          | Some (Component ia ca), Some (Component ib cb) =>
              bool_decide (ia = ib) &&
              compareConditionsSpec fuel h ca cb treatEmptyAsEqual
          | Some (Value sa va _), Some (Value sb vb _) =>
              bool_decide (sa = sb) && bool_decide (va = vb)
          | Some (Values sa va), Some (Values sb vb) =>
              bool_decide (sa = sb) && bool_decide (va = vb)
          | Some (Field na), Some (Field nb) => bool_decide (na = nb)
          | _, _ => false
          end
      end
  end.

(** [v] is [null] or the root of a condition tree of the store: every
    reference below it leads to an object, and no path below it is longer
    than [depth].  Such a tree has no cycle; subtrees may be shared. *)
Fixpoint tree (depth : nat) (h : heap) (v : val) : bool :=
  match depth with
  | 0 => false
  | S depth =>
      match v with
      | VNull => true
      | VRef l =>
          match h !! l with
          | Some (Condition _ operands) =>
              forallb (λ o, tree depth h (VRef o)) operands
          | Some (Component _ cond) => tree depth h cond
          | Some _ => true
          | None => false
          end
      end
  end.

(** The conditions of all markers of the store are trees. *)
Definition marker_trees (depth : nat) (h : heap) : Prop :=
  ∀ o id existing, h !! o = Some (Component id existing) →
    tree depth h existing = true.

(** ** Example stores *)

(** [and(component("a", null), component("b", null))] at reference 1, and
    the predicate [isNull(field("name"))] at reference 4. *)
Definition store_ab : heap :=
  <[1%positive := Condition "and" [2%positive; 3%positive]]>
  (<[2%positive := Component (Some "a") VNull]>
  (<[3%positive := Component (Some "b") VNull]>
  (<[4%positive := Condition "isNull" [5%positive]]>
  (<[5%positive := Field "name"]> ∅)))).

(** The predicate [ge(field("age"), value("Int", 18))] at reference 1, and
    nothing else. *)
Definition store_age : heap :=
  <[1%positive := Condition "ge" [2%positive; 3%positive]]>
  (<[2%positive := Field "age"]>
  (<[3%positive := Value "Int" (SInt 18) None]> ∅)).

(** [and(component(null, null), component(null, null))] at reference 1. *)
Definition store_placeholders : heap :=
  <[1%positive := Condition "and" [2%positive; 3%positive]]>
  (<[2%positive := Component None VNull]>
  (<[3%positive := Component None VNull]> ∅)).

(** [and(component("a", null), field("x"))] at reference 1: the second
    operand is no Component marker. *)
Definition store_a_field : heap :=
  <[1%positive := Condition "and" [2%positive; 3%positive]]>
  (<[2%positive := Component (Some "a") VNull]>
  (<[3%positive := Field "x"]> ∅)).

(** * The tree widget: selection ids and keyboard movement (ui/tree/Tree.js) *)

(** What [ctx.selected] and the [data-sel] attribute of a tree item hold: the
    attribute may be missing ([undefined]), the context starts with [null],
    and ids are strings.  [===] on these values is equality. *)
Inductive selection :=
  | SelUndefined
  | SelNull
  | SelString (s : string).

Global Instance selection_eq_dec : EqDecision selection.
Proof. solve_decision. Defined.

(** The largest counter a JavaScript number counts up to by steps of one:
    [2^53 + 1] is rounded back to [2^53]. *)
Definition MAX_COUNTER : N := 9007199254740992%N.

(** [selectionCounter++] on the counters that are reached from 1. *)
Definition increment (selectionCounter : N) : N :=
  if bool_decide (selectionCounter < MAX_COUNTER)%N then (selectionCounter + 1)%N
  else selectionCounter.

(** [nextSelectionId()]: the id and the counter it leaves. *)
Definition nextSelectionId (selectionCounter : N) : string * N :=
  ("i-" +:+ pretty selectionCounter, increment selectionCounter).

(** The ids of [k] calls one after the other. *)
Fixpoint selectionIds (k : nat) (selectionCounter : N) : list string :=
  match k with
  | 0 => []
  | S k =>
      let '(id, selectionCounter) := nextSelectionId selectionCounter in
      id :: selectionIds k selectionCounter
  end.

(** The loop of [findItemIndex], from index [i] on.  An item is given by its
    [dataset.sel]. *)
Fixpoint findItemIndex_from (i : Z) (items : list selection)
    (selectionId : selection) : Z :=
  match items with
  | [] => (-1)%Z
  | item :: rest =>
      if bool_decide (item = selectionId) then i
      else findItemIndex_from (i + 1)%Z rest selectionId
  end.

Definition findItemIndex (items : list selection) (selectionId : selection) : Z :=
  findItemIndex_from 0%Z items selectionId.

(** The entries of [MOVEMENT_KEYS]: a number of steps, or [Infinity]. *)
Inductive movement :=
  | Steps (n : Z)
  | Infinity.

(** [MOVEMENT_KEYS[keyCode]]: Home, End, cursor down, cursor up. *)
Definition MOVEMENT_KEYS (keyCode : Z) : option movement :=
  if bool_decide (keyCode = 36%Z) then Some (Steps 0)
  else if bool_decide (keyCode = 35%Z) then Some Infinity
  else if bool_decide (keyCode = 40%Z) then Some (Steps 1)
  else if bool_decide (keyCode = 38%Z) then Some (Steps (-1))
  else None.

(** [items[i]]; [undefined] outside the list. *)
Definition item_at (items : list selection) (i : Z) : option selection :=
  if bool_decide (0 ≤ i)%Z then items !! Z.to_nat i else None.

(** What a key press has done: whether [ev.preventDefault()] was called, the
    index of the item that got the focus, and [ctx.selected] afterwards. *)
Record key_result := {
  defaultPrevented : bool;
  focused : option Z;
  selected : selection
}.

Inductive key_outcome :=
  | Done (r : key_result)
  | TypeError
  | ItemCase.

(** The [default:] branch of the switch of [onKeyDown]: [items] are the tree
    items in document order, [sel] is [ctx.selected].  [item.focus()] on
    [undefined] is a TypeError; [ctx.select] stores the [dataset.sel] of the
    item. *)
Definition onKeyDown_default (items : list selection) (sel : selection)
    (keyCode : Z) : key_outcome :=
  match MOVEMENT_KEYS keyCode with
  | None => Done {| defaultPrevented := false; focused := None; selected := sel |}
  | Some n =>
      let pos := findItemIndex items sel in
      let focusCurrent := bool_decide (pos < 0)%Z in
      let pos := if focusCurrent then 0%Z else pos in
      let newPos :=
        match n with
        | Infinity => (Z.of_nat (length items) - 1)%Z
        | Steps n => if bool_decide (n = 0%Z) then 0%Z else (pos + n)%Z
        end in
      if bool_decide (0 ≤ newPos)%Z && bool_decide (newPos < Z.of_nat (length items))%Z
      then
        match item_at items newPos with
        | Some item =>
            Done {| defaultPrevented := true; focused := Some newPos; selected := item |}
        | None => TypeError
        end
      else if focusCurrent then
        match item_at items pos with
        | Some item =>
            Done {| defaultPrevented := true; focused := Some pos; selected := item |}
        | None => TypeError
        end
      else Done {| defaultPrevented := true; focused := None; selected := sel |}
  end.

(** [onKeyDown]: [dropdownItem] is [ev.target.classList.contains("dropdown-item")],
    the target being an entry of a context menu, for which the handler returns
    before it looks at the key.  The cases of the switch for return (13),
    cursor left (37) and cursor right (39) click a button of the item or move
    the focus to its parent or its first child; what they do is read from the
    document and is not described here: they are the outcome [ItemCase].
    Every other key goes to the [default:] branch. *)
Definition onKeyDown (dropdownItem : bool) (items : list selection)
    (sel : selection) (keyCode : Z) : key_outcome :=
  if dropdownItem
  then Done {| defaultPrevented := false; focused := None; selected := sel |}
  else if bool_decide (keyCode = 13%Z) then ItemCase
  else if bool_decide (keyCode = 37%Z) then ItemCase
  else if bool_decide (keyCode = 39%Z) then ItemCase
  else onKeyDown_default items sel keyCode.


(** * Pagination (ui/Pagination.js) *)

(** Numbers are integers of a magnitude below [2^53], where the arithmetic of
    JavaScript numbers is exact: a quotient truncated by [|0] is the truncated
    integer quotient, and [Math.ceil] of a quotient is the integer ceiling.
    [NaN] is [None]. *)

(** The labels [i18n("Pagination:First")] and so on; [i18n] is not among the
    sources, so they are parameters. *)
Record button_names := {
  BUTTON_FIRST : string;
  BUTTON_PREV : string;
  BUTTON_NEXT : string;
  BUTTON_LAST : string
}.

(** An entry of the button config: [{ name }] or [{ offset }]; a property
    that is not there is [undefined]. *)
Record button := {
  btn_name : option string;
  btn_offset : option Z
}.

Inductive page_outcome :=
  | Page (page : option Z)
  | InvalidButtonName (name : string).

(** [if (name)]: a string other than the empty one. *)
Definition truthy_name (name : option string) : bool :=
  match name with
  | Some s => negb (bool_decide (s = ""))
  | None => false
  end.

Definition getTargetPage (L : button_names) (btn : button)
    (currentPage numPages : Z) : page_outcome :=
  if truthy_name (btn_name btn) then
    let name := default "" (btn_name btn) in
    if bool_decide (name = BUTTON_FIRST L) then Page (Some 0%Z)
    else if bool_decide (name = BUTTON_PREV L) then Page (Some (currentPage - 1)%Z)
    else if bool_decide (name = BUTTON_NEXT L) then Page (Some (currentPage + 1)%Z)
    else if bool_decide (name = BUTTON_LAST L) then Page (Some (numPages - 1)%Z)
    else InvalidButtonName name
  else
    Page (match btn_offset btn with
          | Some offset => Some (currentPage + offset)%Z
          | None => None
          end).

(** An entry of the page size list: a number, or a label such as "All Rows". *)
Inductive page_size_entry :=
  | SizeNumber (n : Z)
  | SizeLabel (s : string).

Definition getPageSize (value : page_size_entry) : Z :=
  match value with
  | SizeLabel _ => 2147483647%Z
  | SizeNumber n => n
  end.

(** [x|0]: the number as a signed 32 bit integer. *)
Definition to_int32 (x : Z) : Z :=
  ((x + 2147483648) mod 4294967296 - 2147483648)%Z.

(** [(offset / pageSize)|0]; a division by 0 gives [Infinity] or [NaN], which
    [|0] turns into 0. *)
Definition currentPageOf (offset pageSize : Z) : Z :=
  to_int32 (Z.quot offset pageSize).

(** [Math.ceil(rowCount / pageSize)], for a page size other than 0. *)
Definition numPagesOf (rowCount pageSize : Z) : Z :=
  (- ((- rowCount) / pageSize))%Z.

(** What is rendered for a button: an empty [<span/>], or a list item with
    the classes "active" and "disabled" or not, an [<a>] or a [<span>] in it,
    with or without [href], its [data-offset] and its text. *)
Inductive button_view :=
  | Hidden
  | Item (active disabled link href : bool) (dataOffset : option Z) (text : string).

(** [String(page + 1)]. *)
Definition page_text (page : option Z) : string :=
  match page with
  | Some p => pretty (p + 1)%Z
  | None => "NaN"
  end.

(** The body of [buttonConfig.map] in [Pagination]. *)
Definition renderButton (L : button_names) (btn : button)
    (offset pageSize numPages : Z) : button_view + string :=
  let name := btn_name btn in
  let currentPage := currentPageOf offset pageSize in
  match getTargetPage L btn currentPage numPages with
  | InvalidButtonName n => inr n
  | Page page =>
      let is_page (P : Z → bool) := match page with Some p => P p | None => false end in
      let isCurrent :=
        is_page (λ p, bool_decide (p = currentPage)) && negb (truthy_name name) in
      let isDisabled :=
        is_page (λ p, bool_decide (p = currentPage)) ||
        is_page (λ p, bool_decide (p < 0)%Z) ||
        is_page (λ p, bool_decide (numPages ≤ p)%Z) in
      if isDisabled && negb (truthy_name name) && negb isCurrent then inl Hidden
      else
        inl (Item isCurrent (isDisabled && negb isCurrent)
               (negb (isCurrent || isDisabled)) (negb isDisabled)
               (match page with Some p => Some (p * pageSize)%Z | None => None end)
               (if truthy_name name then default "" name else page_text page))
  end.

(** [buttonConfig.map(...)]: the views in order, or the name the first
    invalid button was given. *)
Fixpoint renderButtons (L : button_names) (buttonConfig : list button)
    (offset pageSize numPages : Z) : list button_view + string :=
  match buttonConfig with
  | [] => inl []
  | btn :: rest =>
      match renderButton L btn offset pageSize numPages with
      | inr n => inr n
      | inl view =>
          match renderButtons L rest offset pageSize numPages with
          | inr n => inr n
          | inl views => inl (view :: views)
          end
      end
  end.

(** What [Pagination] renders besides the page size select and the row
    count: no button list at all when there is at most one page.  The offset
    is a number: the component throws for anything else before it does
    anything. *)
Inductive pagination_view :=
  | PageSizesOnly
  | Buttons (views : list button_view)
  | PaginationError (name : string).

Definition Pagination (L : button_names) (buttonConfig : list button)
    (offset pageSize rowCount : Z) : pagination_view :=
  let numPages := numPagesOf rowCount pageSize in
  if bool_decide (numPages ≤ 1)%Z then PageSizesOnly
  else
    match renderButtons L buttonConfig offset pageSize numPages with
    | inl views => Buttons views
    | inr n => PaginationError n
    end.

Definition DEFAULT_BUTTON_CONFIG (L : button_names) : list button :=
  [ {| btn_name := Some (BUTTON_FIRST L); btn_offset := None |};
    {| btn_name := Some (BUTTON_PREV L); btn_offset := None |};
    {| btn_name := None; btn_offset := Some (-3)%Z |};
    {| btn_name := None; btn_offset := Some (-2)%Z |};
    {| btn_name := None; btn_offset := Some (-1)%Z |};
    {| btn_name := None; btn_offset := Some 0%Z |};
    {| btn_name := None; btn_offset := Some 1%Z |};
    {| btn_name := None; btn_offset := Some 2%Z |};
    {| btn_name := None; btn_offset := Some 3%Z |};
    {| btn_name := Some (BUTTON_NEXT L); btn_offset := None |};
    {| btn_name := Some (BUTTON_LAST L); btn_offset := None |} ].

(** The labels are four different non-empty strings. *)
Definition distinct_names (L : button_names) : Prop :=
  NoDup [BUTTON_FIRST L; BUTTON_PREV L; BUTTON_NEXT L; BUTTON_LAST L] ∧
  "" ∉ [BUTTON_FIRST L; BUTTON_PREV L; BUTTON_NEXT L; BUTTON_LAST L].

Definition english_names : button_names :=
  {| BUTTON_FIRST := "First"; BUTTON_PREV := "Prev";
     BUTTON_NEXT := "Next"; BUTTON_LAST := "Last" |}.


(** The item carries the class "active". *)
Definition is_active (view : button_view) : bool :=
  match view with
  | Item true _ _ _ _ _ => true
  | _ => false
  end.


(** * The tree widget: appending loaded rows (ui/tree/Tree.js) *)

Section AppendRows.

(** Rows are objects, known here by their reference; [get(row, nameField)]
    comes from lodash, which is not among the sources: [name_of] is the name
    it reads from a row, [None] for [undefined], and it gives [undefined] for
    a row that is [undefined].  Names are compared with [===], taken to be
    equality.  The model takes it that the name of a row does not depend on
    the numbered properties the action writes into rows. *)
Context {R Nm Q : Type} `{EqDecision Nm}.
Variable name_of : R → option Nm.

Definition get (row : option R) : option Nm :=
  match row with
  | Some r => name_of r
  | None => None
  end.

(** [values] and [newValues]: the query config and the rows. *)
Record query_values := {
  queryConfig : Q;
  rows : list R
}.

(** [existingRow[j] = newRow]: a property named [j] of an existing row is
    set to the new row. *)
Record row_write := {
  existingRow : R;
  index : nat;
  newRow : R
}.

(** [rows.slice(0, pos)]: a negative [pos] counts from the end. *)
Definition slice_before (rows : list R) (pos : Z) : list R :=
  if bool_decide (0 ≤ pos)%Z then take (Z.to_nat pos) rows
  else take (Z.to_nat (Z.of_nat (length rows) + pos)) rows.

(** [rows.slice(pos)]. *)
Definition slice_from (rows : list R) (pos : Z) : list R :=
  if bool_decide (0 ≤ pos)%Z then drop (Z.to_nat pos) rows
  else drop (Z.to_nat (Z.of_nat (length rows) + pos)) rows.

(** How the inner loop ends for one new row. *)
Inductive search_result :=
  | NotFound
  | FoundAt (row : R) (j : nat)
  | WriteToUndefined.

(** The inner loop over [existingRows[j]] for [j] from a non-negative
    index on; [rest] are the rows from index [j] on. *)
Fixpoint search_from (j : nat) (rest : list R) (newName : option Nm)
    : search_result :=
  match rest with
  | [] => NotFound
  | existing :: rest =>
      if bool_decide (get (Some existing) = newName) then FoundAt existing j
      else search_from (S j) rest newName
  end.

(** The inner loop from [pos] on.  For a negative [j] the row
    [existingRows[j]] is [undefined] and so is its name: a new row whose name
    is [undefined] matches it, and the write to it is a TypeError. *)
Definition search (existingRows : list R) (pos : Z) (newName : option Nm)
    : search_result :=
  if bool_decide (0 ≤ pos)%Z then
    search_from (Z.to_nat pos) (drop (Z.to_nat pos) existingRows) newName
  else if bool_decide (get None = newName) then WriteToUndefined
  else search_from 0 existingRows newName.

(** What the action has done: the values it leaves, the writes into existing
    rows in the order they were made, and whether it ended in a TypeError. *)
Record append_result := {
  values_after : query_values;
  writes : list row_write;
  threw : bool
}.

(** The outer loop over [newRows], with [newArray] and the writes made so
    far; the flag tells whether a write hit [undefined]. *)
Fixpoint merge_rows (existingRows : list R) (pos : Z) (newRows : list R)
    (newArray : list R) (ws : list row_write)
    : list R * list row_write * bool :=
  match newRows with
  | [] => (newArray, ws, false)
  | new :: newRows =>
      match search existingRows pos (get (Some new)) with
      | WriteToUndefined => (newArray, ws, true)
      | FoundAt existing j =>
          merge_rows existingRows pos newRows newArray
            (ws ++ [{| existingRow := existing; index := j; newRow := new |}])
      | NotFound =>
          merge_rows existingRows pos newRows (newArray ++ [new]) ws
      end
  end.

(** A new row counts as present when a row at or after [pos] has its name. *)
Definition present (existingRows : list R) (pos : nat) (new : R) : Prop :=
  name_of new ∈ map name_of (drop pos existingRows).

Global Instance present_dec existingRows pos new :
  Decision (present existingRows pos new).
Proof. unfold present. apply _. Defined.

Definition appendRows (values newValues : query_values) (pos : Z) : append_result :=
  let values := {| queryConfig := queryConfig newValues; rows := rows values |} in
  if bool_decide (pos = -1)%Z then
    {| values_after :=
         {| queryConfig := queryConfig values;
            rows := rows values ++ rows newValues |};
       writes := []; threw := false |}
  else
    let existingRows := rows values in
    let '(newArray, ws, thrown) :=
      merge_rows existingRows pos (rows newValues) (slice_before existingRows pos) [] in
    if thrown then {| values_after := values; writes := ws; threw := true |}
    else
      {| values_after :=
           {| queryConfig := queryConfig values;
              rows := newArray ++ slice_from existingRows pos |};
         writes := ws; threw := false |}.

End AppendRows.


(** Example rows: a name, which may be missing, and a version. *)
Definition example_name (row : option string * Z) : option string := row.1.

Definition rows_loaded : query_values (R := option string * Z) (Q := Z) :=
  {| queryConfig := 1%Z; rows := [(Some "a", 1%Z); (Some "b", 1%Z)] |}.

Definition rows_fresh : query_values (R := option string * Z) (Q := Z) :=
  {| queryConfig := 2%Z; rows := [(Some "b", 2%Z); (Some "c", 2%Z); (None, 2%Z)] |}.


(** * GraphQL variables (graphql.js) *)

Section ConvertInput.

(** Types, JavaScript values and wire values.  [wireFormat.convert(type,
    value, fromWire)] comes from the domain module, which is not among the
    sources; it may throw, which is [None] here. *)
Context {T V W : Type}.
Variable convert : T → V → bool → option W.

Inductive convert_outcome :=
  | Undefined
  | Converted (out : gmap string W)
  | InvalidVariable (name : string)
  | ConvertThrew (name : string).

(** The [for (let name in variables)] loop: [variables] are the own
    properties in the order of enumeration, [varTypes] the declared types (a
    name without a type reads as [undefined]); [out] is the object built so
    far. *)
Fixpoint convertInput_loop (varTypes : gmap string T)
    (variables : list (string * V)) (out : gmap string W) : convert_outcome :=
  match variables with
  | [] => Converted out
  | (name, value) :: rest =>
      match varTypes !! name with
      | None => InvalidVariable name
      | Some varType =>
          match convert varType value false with
          | None => ConvertThrew name
          | Some w => convertInput_loop varTypes rest (<[name := w]> out)
          end
      end
  end.

(** [convertInput(varTypes, variables)]; no variables ([undefined] or
    [null]) is [None]. *)
Definition convertInput (varTypes : gmap string T)
    (variables : option (list (string * V))) : convert_outcome :=
  match variables with
  | None => Undefined
  | Some variables => convertInput_loop varTypes variables ∅
  end.

End ConvertInput.

(** * The configuration object (config.js) *)

(** A property key: a string or a symbol. *)
Inductive property :=
  | PString (s : string)
  | PSymbol (description : string).

Global Instance property_eq_dec : EqDecision property.
Proof. solve_decision. Defined.

(** [!property]: a string is falsy when it is empty, a symbol never. *)
Definition not_property (p : property) : bool :=
  match p with
  | PString s => bool_decide (s = "")
  | PSymbol _ => false
  end.

(** [b instanceof Symbol] for a boolean [b]: a primitive value is an
    instance of nothing. *)
Definition boolean_instanceof_Symbol (b : bool) : bool := false.

(** [DEFAULT_OPTS.hasOwnProperty(property)], the options given by their
    names. *)
Definition hasOwnProperty (DEFAULT_OPTS : list string) (p : property) : bool :=
  match p with
  | PString s => bool_decide (s ∈ DEFAULT_OPTS)
  | PSymbol _ => false
  end.

(** [ensureValid(property)]: [Some p] when it throws "Invalid config key".
    The condition is [(!property) instanceof Symbol]: [!] binds tighter than
    [instanceof]. *)
Definition ensureValid (DEFAULT_OPTS : list string) (p : property) : option property :=
  if boolean_instanceof_Symbol (not_property p) then
    if negb (hasOwnProperty DEFAULT_OPTS p) then Some p else None
  else None.

Section Config.

(** The target of the proxy is a function object.  How it reads and writes
    a property is the business of the language: [read] is [config[property]],
    [write] is [config[property] = value], [None] when the assignment throws
    (a property that is not writable, in strict mode). *)
Context {V Target : Type}.
Variable read : Target → property → V.
Variable write : Target → property → V → option Target.

(** The module state: the list [VALID_KEYS] and the proxy target. *)
Record config_state := {
  VALID_KEYS : list property;
  target : Target
}.

Inductive get_outcome :=
  | Keys (keys : list property)
  | Got (v : V)
  | GetInvalidKey (p : property).

Inductive set_outcome :=
  | SetDone (st : config_state)
  | SetInvalidKey (p : property)
  | SetTypeError.

(** The [get] trap. *)
Definition config_get (DEFAULT_OPTS : list string) (st : config_state)
    (p : property) : get_outcome :=
  if bool_decide (p = PString "keys") then Keys (VALID_KEYS st)
  else
    match ensureValid DEFAULT_OPTS p with
    | Some p => GetInvalidKey p
    | None => Got (read (target st) p)
    end.

(** The [set] trap. *)
Definition config_set (DEFAULT_OPTS : list string) (st : config_state)
    (p : property) (value : V) : set_outcome :=
  match ensureValid DEFAULT_OPTS p with
  | Some p => SetInvalidKey p
  | None =>
      match write (target st) p value with
      | Some t => SetDone {| VALID_KEYS := VALID_KEYS st; target := t |}
      | None => SetTypeError
      end
  end.

End Config.


(** An example conversion: the wire value is the value tagged with its type;
    a negative value is refused. *)
Definition example_convert (type : string) (value : Z) (fromWire : bool)
    : option string :=
  if bool_decide (0 ≤ value)%Z then Some (type +:+ ":" +:+ pretty value) else None.


(** ** The store only grows *)

Lemma fresh_unused (h : heap) : h !! fresh (dom h) = None.
Proof. apply not_elem_of_dom, is_fresh. Qed.

Lemma marker_store_eq (h : heap) (id : option string) (p : val) :
  marker_store h id p = <[new_marker h := Component id p]> h.
Proof.
  unfold marker_store, component, alloc, set_condition, new_marker. simpl.
  rewrite lookup_insert_eq. apply insert_insert_eq.
Qed.

Lemma marker_store_new (h : heap) (id : option string) (p : val) :
  marker_store h id p !! new_marker h = Some (Component id p).
Proof. rewrite marker_store_eq. apply lookup_insert_eq. Qed.

Lemma marker_store_subseteq (h : heap) (id : option string) (p : val) :
  h ⊆ marker_store h id p.
Proof. rewrite marker_store_eq. apply insert_subseteq, fresh_unused. Qed.

Lemma marker_store_old (h : heap) (id : option string) (p : val) (l : loc) (o : node) :
  h !! l = Some o → marker_store h id p !! l = Some o.
Proof. intros H. eapply lookup_weaken; [exact H | apply marker_store_subseteq]. Qed.

(** Creating a condition and assigning its operands, as one step. *)
Lemma condition_set_operands (h : heap) (name : string) (ops : list loc) :
  set_operands (condition h name).2 (condition h name).1 ops
  = <[fresh (dom h) := Condition name ops]> h.
Proof.
  unfold condition, alloc, set_operands. simpl.
  rewrite lookup_insert_eq. apply insert_insert_eq.
Qed.

(** ** simplifyCondition: what the loop decides *)

Lemma is_null_component_spec (h : heap) (o : loc) :
  is_null_component h o = true ↔ ∃ c, h !! o = Some (Component None c).
Proof.
  unfold is_null_component. split.
  - destruct (h !! o) as [[| | | |[i|] c]|]; try discriminate. eauto.
  - intros [c ->]. reflexivity.
Qed.

Lemma all_null_components_spec (h : heap) (operands : list loc) :
  all_null_components h operands = true ↔
  Forall (λ o, ∃ c, h !! o = Some (Component None c)) operands.
Proof.
  induction operands as [|o rest IH]; simpl.
  - split; [constructor | reflexivity].
  - destruct (is_null_component h o) eqn:E.
    + rewrite IH. split.
      * intros H. constructor; [by apply is_null_component_spec | done].
      * intros H. by inversion H.
    + split; [discriminate |]. intros H. inversion H as [|? ? Ho _]; subst.
      apply is_null_component_spec in Ho. congruence.
Qed.

Lemma simplifyCondition_anonymous (h : heap) (n : val) :
  all_anonymous_and h n → simplifyCondition h n = VNull.
Proof.
  intros (l & ops & -> & Hl & Hall). unfold simplifyCondition. simpl.
  rewrite Hl. rewrite bool_decide_eq_true_2 by reflexivity.
  apply all_null_components_spec in Hall. by rewrite Hall.
Qed.

Lemma simplifyCondition_other (h : heap) (n : val) :
  ¬ all_anonymous_and h n → simplifyCondition h n = n.
Proof.
  intros Hn. unfold simplifyCondition.
  destruct n as [|l]; [reflexivity |]. simpl.
  destruct (h !! l) as [[| | |name ops|]|] eqn:Hl; try reflexivity.
  case_bool_decide as Hname; [| reflexivity]. subst name.
  destruct (all_null_components h ops) eqn:E; [| reflexivity].
  exfalso. apply Hn. exists l, ops. split_and!; try done.
  by apply all_null_components_spec.
Qed.

Lemma simplifyCondition_null_inv (h : heap) (n : val) :
  simplifyCondition h n = VNull → n = VNull ∨ all_anonymous_and h n.
Proof.
  unfold simplifyCondition. destruct n as [|l]; [by left |]. simpl.
  destruct (h !! l) as [[| | |name ops|]|] eqn:Hl; try discriminate.
  case_bool_decide as Hname; [| discriminate]. subst name.
  destruct (all_null_components h ops) eqn:E; [| discriminate].
  intros _. right. exists l, ops. split_and!; try done.
  by apply all_null_components_spec.
Qed.

(** The result is the argument or [null], nothing else. *)
Lemma simplifyCondition_cases (h : heap) (n : val) :
  simplifyCondition h n = n ∨ simplifyCondition h n = VNull.
Proof.
  unfold simplifyCondition.
  destruct (deref h n) as [[| | |name ops|]|]; auto.
  case_bool_decide; auto. destruct (all_null_components h ops); auto.
Qed.

(** C6, as stated: "for every node n (null included), simplifyCondition(n)
    returns null if and only if n is an "and" Condition whose every operand is
    a Component marker with id null".  It fails at [n = null]: the function
    returns its argument, which is [null], and [null] is no "and" Condition. *)
Lemma simplifyCondition_null_iff_fails :
  simplifyCondition ∅ VNull = VNull ∧ ¬ all_anonymous_and ∅ VNull.
Proof.
  split; [reflexivity |]. intros (l & ops & Hn & _). discriminate.
Qed.

(** C6, amended: an "and" Condition whose every operand is a Component marker
    with id null is simplified to null; every other argument, null included, is
    returned unchanged (so null is returned for null); and for a non-null
    argument the result is null if and only if the argument is such an "and".
    Only the type and the id of the direct operands are read. *)
Theorem simplifyCondition_characterised (h : heap) (n : val) :
  (all_anonymous_and h n → simplifyCondition h n = VNull) ∧
  (¬ all_anonymous_and h n → simplifyCondition h n = n) ∧
  (n ≠ VNull → (simplifyCondition h n = VNull ↔ all_anonymous_and h n)).
Proof.
  split_and!.
  - apply simplifyCondition_anonymous.
  - apply simplifyCondition_other.
  - intros Hn. split; [| apply simplifyCondition_anonymous].
    intros Hs. by destruct (simplifyCondition_null_inv h n Hs).
Qed.

(** C9: an "and" Condition with no operands at all is simplified to null: the
    loop has nothing to object to. *)
Theorem simplifyCondition_empty_and (h : heap) (l : loc) :
  h !! l = Some (Condition "and" []) → simplifyCondition h (VRef l) = VNull.
Proof.
  intros Hl. unfold simplifyCondition. simpl. rewrite Hl. reflexivity.
Qed.

Lemma simplifyCondition_empty_and_witness :
  simplifyCondition {[ 1%positive := Condition "and" [] ]} (VRef 1%positive) = VNull.
Proof.
  apply (simplifyCondition_empty_and {[ 1%positive := Condition "and" [] ]} 1%positive).
  reflexivity.
Defined.

(** ** updateComponentCondition on an empty composite *)

Lemma fresh_marker_store_unused (h : heap) (id : option string) (p : val) :
  h !! fresh (dom (marker_store h id p)) = None.
Proof.
  destruct (h !! fresh (dom (marker_store h id p))) as [o|] eqn:E; [| done].
  apply (marker_store_old h id p) in E. by rewrite fresh_unused in E.
Qed.

Lemma rebuilt_store_marker (h : heap) (id : option string) (p : val)
    (name : string) (ops : list loc) :
  rebuilt_store (marker_store h id p) name ops !! new_marker h
  = Some (Component id p).
Proof.
  pose proof (marker_store_new h id p) as Hn.
  unfold rebuilt_store. rewrite lookup_insert_ne; [done |].
  intros E. rewrite <- E in Hn. by rewrite fresh_unused in Hn.
Qed.

(** The call on [null], with the creation of the new marker and of the new
    condition each taken as one step. *)
Lemma updateComponentCondition_VNull (cmp : heap → val → val → bool → bool)
    (h : heap) (p : val) (id : option string) (cu : bool) :
  updateComponentCondition cmp h VNull p id cu
  = (Return (VRef (fresh (dom (marker_store h id p)))),
     rebuilt_store (marker_store h id p) "and" [new_marker h]).
Proof.
  unfold updateComponentCondition.
  change (component h id) with (new_marker h, (component h id).2).
  cbv beta iota zeta.
  change (set_condition (component h id).2 (new_marker h) p) with (marker_store h id p).
  rewrite (surjective_pairing (condition (marker_store h id p) "and")).
  by rewrite condition_set_operands.
Qed.

(** C5: with [null] as composite the result is a new "and" Condition whose
    only operand is a new Component marker with the given id and condition.
    The result is the same for every comparator, even with [compareUpdate]
    set: the comparator is not consulted. *)
Theorem updateComponentCondition_null (h : heap) (p : val)
    (componentId : option string) (compareUpdate : bool) :
  ∃ (n r : loc) (h' : heap),
    h !! n = None ∧ h !! r = None ∧
    h' !! r = Some (Condition "and" [n]) ∧
    h' !! n = Some (Component componentId p) ∧
    ∀ cmp, updateComponentCondition cmp h VNull p componentId compareUpdate
           = (Return (VRef r), h').
Proof.
  eexists (new_marker h), _, _. split_and!.
  - apply fresh_unused.
  - apply (fresh_marker_store_unused h componentId p).
  - apply lookup_insert_eq.
  - apply rebuilt_store_marker.
  - intros cmp. apply updateComponentCondition_VNull.
Qed.

(** ** The walk over the operands *)

Lemma is_component_spec (h : heap) (o : loc) :
  is_component h o = true ↔ ∃ id c, h !! o = Some (Component id c).
Proof.
  unfold is_component. split.
  - destruct (h !! o) as [[| | | |i c]|]; try discriminate. eauto.
  - intros (i & c & ->). reflexivity.
Qed.

Lemma marker_id_Some (h : heap) (o : loc) (id : option string) :
  marker_id h o = Some id ↔ ∃ c, h !! o = Some (Component id c).
Proof.
  unfold marker_id. split.
  - destruct (h !! o) as [[| | | |i c]|]; try discriminate.
    intros [= ->]. eauto.
  - intros (c & ->). reflexivity.
Qed.

Section Walk.

Variable cmp : heap → val → val → bool → bool.

(** If the walk runs to its end, every operand was a marker, each marker
    with the id was replaced by the new node in its place, every other
    operand was pushed as it is, and [found] records whether there was
    one. *)
Lemma walk_Rebuilt (h : heap) (ops : list loc) (n : loc) (p : val)
    (id : option string) (cu : bool) (acc cc : list loc) (found f : bool) :
  walk cmp h ops n p id cu acc found = Rebuilt cc f →
  cc = acc ++ map (replace_marker h id n) ops ∧
  f = found || has_marker h id ops ∧
  Forall (λ o, is_component h o = true) ops.
Proof.
  revert acc found. induction ops as [|o rest IH]; intros acc found; simpl.
  - intros [= <- <-]. by rewrite app_nil_r, orb_false_r.
  - destruct (h !! o) as [[| | | |i c]|] eqn:Ho; try discriminate.
    assert (Hid : marker_id h o = Some i) by (unfold marker_id; by rewrite Ho).
    assert (Hc : is_component h o = true) by (unfold is_component; by rewrite Ho).
    unfold replace_marker at 1. rewrite Hid.
    case_bool_decide as Hi.
    + destruct (cu && _); [discriminate |].
      intros H. apply IH in H as (-> & -> & Hall).
      rewrite !bool_decide_eq_true_2 by congruence.
      rewrite <- app_assoc, orb_true_r. simpl.
      split_and!; [done | done |]. by constructor.
    + intros H. apply IH in H as (-> & -> & Hall).
      rewrite !bool_decide_eq_false_2 by congruence.
      rewrite <- app_assoc. simpl.
      split_and!; [done | done |]. by constructor.
Qed.

(** The walk throws exactly when it reaches an operand that is no marker. *)
Lemma walk_all_components (h : heap) (ops : list loc) (n : loc) (p : val)
    (id : option string) (cu : bool) (acc : list loc) (found : bool) :
  Forall (λ o, is_component h o = true) ops →
  walk cmp h ops n p id cu acc found ≠ Invalid.
Proof.
  revert acc found. induction ops as [|o rest IH]; intros acc found Hall; simpl.
  - discriminate.
  - inversion Hall as [|? ? Ho Hrest]; subst.
    apply is_component_spec in Ho as (i & c & ->).
    case_bool_decide; [destruct (cu && _); [discriminate |] |]; by apply IH.
Qed.

(** Without [compareUpdate] the walk never takes the early return. *)
Lemma walk_no_compare (h : heap) (ops : list loc) (n : loc) (p : val)
    (id : option string) (acc : list loc) (found : bool) :
  walk cmp h ops n p id false acc found ≠ Skip.
Proof.
  revert acc found. induction ops as [|o rest IH]; intros acc found; simpl.
  - discriminate.
  - destruct (h !! o) as [[| | | |i c]|]; try discriminate.
    case_bool_decide; apply IH.
Qed.

(** The early return is taken at a marker with the id whose condition the
    comparator reports equal, all operands before it being markers. *)
Lemma walk_Skip (h : heap) (ops : list loc) (n : loc) (p : val)
    (id : option string) (acc : list loc) (found : bool) :
  Forall (λ o, is_component h o = true) ops →
  (∃ o c, o ∈ ops ∧ h !! o = Some (Component id c) ∧
          same_condition cmp h c p = true) →
  walk cmp h ops n p id true acc found = Skip.
Proof.
  revert acc found. induction ops as [|o rest IH]; intros acc found Hall Hex.
  - destruct Hex as (o & c & Hin & _). by apply elem_of_nil in Hin.
  - inversion Hall as [|? ? Ho Hrest]; subst. simpl.
    apply is_component_spec in Ho as (i & c & Ho). rewrite Ho.
    case_bool_decide as Hi.
    + fold (same_condition cmp h c p).
      destruct (same_condition cmp h c p) eqn:E; [reflexivity |].
      apply IH; [done |].
      destruct Hex as (o' & c' & Hin & Ho' & Hc').
      apply elem_of_cons in Hin as [-> | Hin]; [| by eauto].
      rewrite Ho in Ho'. injection Ho' as <-. congruence.
    + apply IH; [done |].
      destruct Hex as (o' & c' & Hin & Ho' & Hc').
      apply elem_of_cons in Hin as [-> | Hin]; [| by eauto].
      rewrite Ho in Ho'. injection Ho' as ->. done.
Qed.

Lemma walk_Skip_inv (h : heap) (ops : list loc) (n : loc) (p : val)
    (id : option string) (cu : bool) (acc : list loc) (found : bool) :
  walk cmp h ops n p id cu acc found = Skip →
  cu = true ∧
  ∃ o c, o ∈ ops ∧ h !! o = Some (Component id c) ∧
         same_condition cmp h c p = true.
Proof.
  revert acc found. induction ops as [|o rest IH]; intros acc found; simpl.
  - discriminate.
  - destruct (h !! o) as [[| | | |i c]|] eqn:Ho; try discriminate.
    case_bool_decide as Hi.
    + fold (same_condition cmp h c p).
      destruct cu; simpl.
      * destruct (same_condition cmp h c p) eqn:E.
        -- intros _. split; [done |]. exists o, c. subst i.
           split_and!; [apply elem_of_cons; by left | done | done].
        -- intros H. apply IH in H as (_ & o' & c' & Hin & H').
           split; [done |]. exists o', c'. split; [apply elem_of_cons; by right | done].
      * intros H. by apply IH in H as [? _].
    + intros H. apply IH in H as (-> & o' & c' & Hin & H').
      split; [done |]. exists o', c'. split; [apply elem_of_cons; by right | done].
Qed.

End Walk.

(** ** updateComponentCondition on an existing composite *)

(** The call on a non-null composite, with the creation of the new marker and
    of the new condition each taken as one step. *)
Lemma updateComponentCondition_ref (cmp : heap → val → val → bool → bool)
    (h : heap) (c : loc) (p : val) (id : option string) (cu : bool) :
  updateComponentCondition cmp h (VRef c) p id cu =
  let h1 := marker_store h id p in
  let n := new_marker h in
  if negb (isLogicalCondition h1 (VRef c)) then (Throw InvalidCurrentCondition, h1)
  else
    match h1 !! c with
    | Some (Condition name ops) =>
        match walk cmp h1 ops n p id cu [] false with
        | Invalid => (Throw InvalidComponentStructure, h1)
        | Skip => (Return (VRef c), h1)
        | Rebuilt cc found =>
            (Return (VRef (fresh (dom h1))),
             rebuilt_store h1 name (if found then cc else cc ++ [n]))
        end
    | _ => (Throw InvalidCurrentCondition, h1)
    end.
Proof.
  unfold updateComponentCondition.
  change (component h id) with (new_marker h, (component h id).2).
  cbv beta iota zeta.
  change (set_condition (component h id).2 (new_marker h) p) with (marker_store h id p).
  destruct (negb _); [reflexivity |].
  destruct (marker_store h id p !! c) as [[| | |name ops|]|]; try reflexivity.
  destruct (walk _ _ _ _ _ _ _ _ _); try reflexivity.
  rewrite (surjective_pairing (condition (marker_store h id p) name)).
  by rewrite condition_set_operands.
Qed.

Lemma isLogicalCondition_spec (h : heap) (v : val) :
  isLogicalCondition h v = true ↔
  ∃ name ops, deref h v = Some (Condition name ops) ∧ (name = "and" ∨ name = "or").
Proof.
  unfold isLogicalCondition. split.
  - destruct (deref h v) as [[| | |name ops|]|]; try discriminate.
    intros H. apply orb_true_iff in H. exists name, ops. split; [done |].
    destruct H as [H|H]; apply bool_decide_eq_true in H; auto.
  - intros (name & ops & -> & H). apply orb_true_iff.
    destruct H as [->| ->]; [left | right]; by apply bool_decide_eq_true.
Qed.

(** The store after a call contains the store before it. *)
Lemma updateComponentCondition_subseteq (cmp : heap → val → val → bool → bool)
    (h : heap) (C p : val) (id : option string) (cu : bool) :
  h ⊆ (updateComponentCondition cmp h C p id cu).2.
Proof.
  assert (H1 : h ⊆ marker_store h id p) by apply marker_store_subseteq.
  assert (H2 : ∀ name ops, h ⊆ rebuilt_store (marker_store h id p) name ops).
  { intros. etrans; [exact H1 |]. apply insert_subseteq, fresh_unused. }
  destruct C as [|c].
  - rewrite updateComponentCondition_VNull. simpl. apply H2.
  - rewrite updateComponentCondition_ref. cbv zeta.
    destruct (negb _); [done |].
    destruct (marker_store h id p !! c) as [[| | |name ops|]|]; try done.
    destruct (walk _ _ _ _ _ _ _ _ _); try done. simpl. apply H2.
Qed.

Lemma is_component_weaken (h h' : heap) (o : loc) :
  h ⊆ h' → is_component h o = true → is_component h' o = true.
Proof.
  intros Hsub H. apply is_component_spec in H as (i & c & Ho).
  apply is_component_spec. exists i, c. by eapply lookup_weaken.
Qed.

Lemma composite_weaken (h h' : heap) (c : loc) (name : string) (ops : list loc) :
  h ⊆ h' → composite h c name ops → composite h' c name ops.
Proof.
  intros Hsub (Hc & Hname & Hall). split_and!; [by eapply lookup_weaken | done |].
  eapply List.Forall_impl; [| exact Hall]. intros o. by apply is_component_weaken.
Qed.

Lemma composite_isLogical (h : heap) (c : loc) (name : string) (ops : list loc) :
  composite h c name ops → isLogicalCondition h (VRef c) = true.
Proof.
  intros (Hc & Hname & _). apply isLogicalCondition_spec. by exists name, ops.
Qed.

(** The early return: the composite comes back and the store only holds the
    new marker in addition. *)
Lemma updateComponentCondition_skip
    (cmp : heap → val → val → bool → bool) (h : heap) (c : loc) (name : string)
    (ops : list loc) (p : val) (id : option string) :
  composite h c name ops →
  (∃ o existing, o ∈ ops ∧ h !! o = Some (Component id existing) ∧
     same_condition cmp (marker_store h id p) existing p = true) →
  updateComponentCondition cmp h (VRef c) p id true
  = (Return (VRef c), marker_store h id p).
Proof.
  intros Hcomp (o & existing & Hin & Ho & Hcmp).
  pose proof (marker_store_subseteq h id p) as Hsub.
  apply (composite_weaken _ _ _ _ _ Hsub) in Hcomp.
  rewrite updateComponentCondition_ref. cbv zeta.
  rewrite (composite_isLogical _ _ _ _ Hcomp). simpl.
  destruct Hcomp as (Hc & _ & Hall). rewrite Hc.
  rewrite (walk_Skip cmp); [done | done |].
  exists o, existing. split_and!; [done | by eapply lookup_weaken | done].
Qed.

(** C1: on a composite that has a marker with the given id, when
    [compareUpdate] is set and the comparator reports the simplified condition
    of that marker equal to the simplified new condition, the call returns the
    reference it was given. *)
Theorem updateComponentCondition_unchanged
    (cmp : heap → val → val → bool → bool) (h : heap) (c : loc) (name : string)
    (ops : list loc) (p : val) (componentId : option string) :
  composite h c name ops →
  (∃ o existing, o ∈ ops ∧ h !! o = Some (Component componentId existing) ∧
     cmp (marker_store h componentId p)
       (simplifyCondition (marker_store h componentId p) existing)
       (simplifyCondition (marker_store h componentId p) p) true = true) →
  (updateComponentCondition cmp h (VRef c) p componentId true).1 = Return (VRef c).
Proof.
  intros Hcomp Hex.
  by rewrite (updateComponentCondition_skip cmp h c name ops p componentId).
Qed.

(** C8: whatever the call does, return or throw, every object of the store it
    was given is afterwards what it was before; and a reference it returns is
    either the composite it was given or a Condition that did not exist
    before. *)
Theorem updateComponentCondition_frame
    (cmp : heap → val → val → bool → bool) (h : heap) (C p : val)
    (componentId : option string) (compareUpdate : bool) :
  (∀ l o, h !! l = Some o →
     (updateComponentCondition cmp h C p componentId compareUpdate).2 !! l = Some o) ∧
  (∀ r, (updateComponentCondition cmp h C p componentId compareUpdate).1 = Return r →
     r = C ∨
     ∃ l name ops, r = VRef l ∧ h !! l = None ∧
       (updateComponentCondition cmp h C p componentId compareUpdate).2 !! l
       = Some (Condition name ops)).
Proof.
  split.
  - intros l o Hl. eapply lookup_weaken; [exact Hl |].
    apply updateComponentCondition_subseteq.
  - set (h1 := marker_store h componentId p).
    assert (Hfresh : h !! fresh (dom h1) = None).
    { destruct (h !! fresh (dom h1)) as [o|] eqn:E; [| done].
      apply (marker_store_old h componentId p) in E. fold h1 in E.
      by rewrite fresh_unused in E. }
    intros r. destruct C as [|c].
    + rewrite updateComponentCondition_VNull. simpl. intros [= <-]. right.
      exists (fresh (dom h1)), "and", [new_marker h].
      split_and!; [done | done | apply lookup_insert_eq].
    + rewrite updateComponentCondition_ref. cbv zeta. fold h1.
      destruct (negb _); [discriminate |].
      destruct (h1 !! c) as [[| | |name ops|]|]; try discriminate.
      destruct (walk _ _ _ _ _ _ _ _ _) as [|cc found|]; simpl.
      * intros [= <-]. by left.
      * intros [= <-]. right.
        exists (fresh (dom h1)), name, (if found then cc else cc ++ [new_marker h]).
        split_and!; [done | done |]. apply lookup_insert_eq.
      * discriminate.
Qed.

(** C10: without [compareUpdate] the call never returns the reference it was
    given; on a composite it returns a Condition that did not exist before,
    even when the comparator would report every pair of conditions equal. *)
Theorem updateComponentCondition_no_compare
    (cmp : heap → val → val → bool → bool) (h : heap) (c : loc) (p : val)
    (componentId : option string) :
  (updateComponentCondition cmp h (VRef c) p componentId false).1 ≠ Return (VRef c) ∧
  (∀ name ops, composite h c name ops →
     ∃ r ops',
       (updateComponentCondition cmp h (VRef c) p componentId false).1 = Return (VRef r) ∧
       r ≠ c ∧ h !! r = None ∧
       (updateComponentCondition cmp h (VRef c) p componentId false).2 !! r
       = Some (Condition name ops')).
Proof.
  set (h1 := marker_store h componentId p).
  assert (Hne : ∀ o, h1 !! c = Some o → fresh (dom h1) ≠ c).
  { intros o Ho E. rewrite <- E in Ho. by rewrite fresh_unused in Ho. }
  assert (Hfresh : h !! fresh (dom h1) = None).
  { destruct (h !! fresh (dom h1)) as [o|] eqn:E; [| done].
    apply (marker_store_old h componentId p) in E. fold h1 in E.
    by rewrite fresh_unused in E. }
  split.
  - rewrite updateComponentCondition_ref. cbv zeta. fold h1.
    destruct (negb _); [discriminate |].
    destruct (h1 !! c) as [[| | |name ops|]|] eqn:Hc; try discriminate.
    pose proof (walk_no_compare cmp h1 ops (new_marker h) p componentId [] false) as Hw.
    destruct (walk _ _ _ _ _ _ _ _ _) as [|cc found|]; simpl; [done | | discriminate].
    intros [= E]. by eapply Hne.
  - intros name ops Hcomp.
    apply (composite_weaken _ _ _ _ _ (marker_store_subseteq h componentId p)) in Hcomp.
    fold h1 in Hcomp.
    rewrite updateComponentCondition_ref. cbv zeta. fold h1.
    rewrite (composite_isLogical _ _ _ _ Hcomp). simpl.
    destruct Hcomp as (Hc & _ & Hall). rewrite Hc.
    pose proof (walk_no_compare cmp h1 ops (new_marker h) p componentId [] false) as Hw.
    pose proof (walk_all_components cmp h1 ops (new_marker h) p componentId false
                  [] false Hall) as Hi.
    destruct (walk _ _ _ _ _ _ _ _ _) as [|cc found|]; simpl; [done | | done].
    exists (fresh (dom h1)), (if found then cc else cc ++ [new_marker h]).
    split_and!; [done | by eapply Hne | done | apply lookup_insert_eq].
Qed.

(** ** Operand order *)

Lemma marker_id_weaken (h h' : heap) (o : loc) :
  h ⊆ h' → is_component h o = true → marker_id h' o = marker_id h o.
Proof.
  intros Hsub H. apply is_component_spec in H as (i & c & Ho).
  unfold marker_id. rewrite Ho. by rewrite (lookup_weaken _ _ _ _ Ho Hsub).
Qed.

Lemma has_marker_true (h : heap) (id : option string) (ops : list loc) :
  has_marker h id ops = true ↔ ∃ o, o ∈ ops ∧ marker_id h o = Some id.
Proof.
  unfold has_marker. rewrite existsb_exists. split.
  - intros (o & Hin & Ho). exists o. split; [by apply list_elem_of_In |].
    by apply bool_decide_eq_true in Ho.
  - intros (o & Hin & Ho). exists o. split; [by apply list_elem_of_In |].
    by apply bool_decide_eq_true.
Qed.

Lemma has_marker_false (h : heap) (id : option string) (ops : list loc) :
  has_marker h id ops = false ↔ ∀ o, o ∈ ops → marker_id h o ≠ Some id.
Proof.
  rewrite <- not_true_iff_false, has_marker_true. split.
  - intros H o Hin Ho. apply H. by exists o.
  - intros H (o & Hin & Ho). by apply (H o).
Qed.

Lemma replace_marker_none (h : heap) (id : option string) (n : loc) (ops : list loc) :
  (∀ o, o ∈ ops → marker_id h o ≠ Some id) →
  map (replace_marker h id n) ops = ops.
Proof.
  induction ops as [|o rest IH]; intros H; simpl; [done |].
  unfold replace_marker at 1.
  rewrite bool_decide_eq_false_2 by (apply H, elem_of_cons; by left).
  f_equal. apply IH. intros o' Hin. apply H, elem_of_cons. by right.
Qed.

Lemma replace_marker_weaken (h h' : heap) (id : option string) (n : loc)
    (ops : list loc) :
  h ⊆ h' → Forall (λ o, is_component h o = true) ops →
  map (replace_marker h' id n) ops = map (replace_marker h id n) ops.
Proof.
  intros Hsub Hall. induction Hall as [|o rest Ho _ IH]; simpl; [done |].
  f_equal; [| done]. unfold replace_marker. by rewrite (marker_id_weaken h h').
Qed.

Lemma has_marker_weaken (h h' : heap) (id : option string) (ops : list loc) :
  h ⊆ h' → Forall (λ o, is_component h o = true) ops →
  has_marker h' id ops = has_marker h id ops.
Proof.
  intros Hsub Hall. unfold has_marker.
  induction Hall as [|o rest Ho _ IH]; simpl; [done |].
  by rewrite IH, (marker_id_weaken h h').
Qed.

(** What a call on a composite does, with the operand array of the result
    written out: the composite itself when the walk returns early, and
    otherwise a new Condition of the same name over the array in which each
    marker with the id is replaced and, when there is none, the new marker is
    added at the end. *)
Lemma updateComponentCondition_composite
    (cmp : heap → val → val → bool → bool) (h : heap) (c : loc) (name : string)
    (ops : list loc) (p : val) (id : option string) (cu : bool) :
  composite h c name ops →
  let h1 := marker_store h id p in
  let n := new_marker h in
  let ops' := map (replace_marker h id n) ops ++
              (if has_marker h id ops then [] else [n]) in
  updateComponentCondition cmp h (VRef c) p id cu = (Return (VRef c), h1) ∧
    walk cmp h1 ops n p id cu [] false = Skip
  ∨ updateComponentCondition cmp h (VRef c) p id cu
    = (Return (VRef (fresh (dom h1))), rebuilt_store h1 name ops') ∧
    walk cmp h1 ops n p id cu [] false
    = Rebuilt (map (replace_marker h id n) ops) (has_marker h id ops).
Proof.
  intros Hcomp h1 n ops'.
  pose proof (marker_store_subseteq h id p) as Hsub. fold h1 in Hsub.
  pose proof Hcomp as (_ & _ & Hall0).
  apply (composite_weaken _ _ _ _ _ Hsub) in Hcomp.
  rewrite updateComponentCondition_ref. cbv zeta. fold h1 n.
  rewrite (composite_isLogical _ _ _ _ Hcomp). simpl.
  destruct Hcomp as (Hc & _ & Hall). rewrite Hc.
  pose proof (walk_all_components cmp h1 ops n p id cu [] false Hall) as Hi.
  destruct (walk _ _ _ _ _ _ _ _ _) as [|cc found|] eqn:Hw; [by left | | done].
  right. apply walk_Rebuilt in Hw as (-> & -> & _). simpl.
  rewrite (replace_marker_weaken h h1), (has_marker_weaken h h1) by done.
  split; [| done]. subst ops'.
  destruct (has_marker h id ops); [by rewrite app_nil_r | done].
Qed.

(** A real change on a composite: no marker with the given id holds a
    condition that the comparator, consulted because [compareUpdate] is set,
    reports equal to the new one.  It holds in particular when no operand has
    the id.  The comparison is made in the store that holds the new marker. *)
Lemma real_change_no_Skip (cmp : heap → val → val → bool → bool) (h : heap)
    (c : loc) (name : string) (ops : list loc) (p : val) (id : option string)
    (cu : bool) :
  composite h c name ops →
  (∀ o existing, o ∈ ops → h !! o = Some (Component id existing) →
     cu && same_condition cmp (marker_store h id p) existing p = false) →
  walk cmp (marker_store h id p) ops (new_marker h) p id cu [] false ≠ Skip.
Proof.
  intros (_ & _ & Hall) Hchange Hw.
  apply walk_Skip_inv in Hw as (-> & o & existing & Hin & Ho & Hsame).
  rewrite Forall_forall in Hall.
  destruct (proj1 (is_component_spec h o) (Hall o Hin)) as (i & e & Ho').
  pose proof (marker_store_old h id p o _ Ho') as Ho''.
  rewrite Ho in Ho''. injection Ho'' as <- <-.
  specialize (Hchange o existing Hin Ho'). rewrite Hsame in Hchange. discriminate.
Qed.

(** C4: on a composite, a real change (among the operands no marker with the
    given id holds a condition that is compared and reported equal to the new
    one; in particular, no operand has the id) always returns a new Condition
    of the same name, and its operand array has, at every position of the old
    array, the old operand, or the new marker where the old operand was a
    marker with the given id; it has the same length when such a marker exists,
    and otherwise it is the old array with the new marker added at the end. *)
Theorem updateComponentCondition_order
    (cmp : heap → val → val → bool → bool) (h : heap) (c : loc) (name : string)
    (ops : list loc) (p : val) (componentId : option string)
    (compareUpdate : bool) :
  composite h c name ops →
  (∀ o existing, o ∈ ops → h !! o = Some (Component componentId existing) →
     compareUpdate && same_condition cmp (marker_store h componentId p) existing p
     = false) →
  ∃ (r : loc) (ops' : list loc),
    (updateComponentCondition cmp h (VRef c) p componentId compareUpdate).1
    = Return (VRef r) ∧
    r ≠ c ∧ h !! r = None ∧
    h !! new_marker h = None ∧
    (updateComponentCondition cmp h (VRef c) p componentId compareUpdate).2
      !! new_marker h = Some (Component componentId p) ∧
    (updateComponentCondition cmp h (VRef c) p componentId compareUpdate).2 !! r
    = Some (Condition name ops') ∧
    (∀ i o, ops !! i = Some o →
       (marker_id h o = Some componentId → ops' !! i = Some (new_marker h)) ∧
       (marker_id h o ≠ Some componentId → ops' !! i = Some o)) ∧
    ((∃ o, o ∈ ops ∧ marker_id h o = Some componentId) →
       length ops' = length ops) ∧
    ((∀ o, o ∈ ops → marker_id h o ≠ Some componentId) →
       ops' = ops ++ [new_marker h]).
Proof.
  intros Hcomp Hchange.
  pose proof (real_change_no_Skip cmp h c name ops p componentId compareUpdate
                Hcomp Hchange) as Hns.
  destruct (updateComponentCondition_composite cmp h c name ops p componentId
              compareUpdate Hcomp) as [[_ Hw]|[E _]]; [done |].
  rewrite E. simpl.
  set (h1 := marker_store h componentId p) in *.
  set (n := new_marker h) in *.
  assert (Hfresh : h !! fresh (dom h1) = None)
    by apply (fresh_marker_store_unused h componentId p).
  eexists _, _. split; [reflexivity |]. split_and!.
  - intros Heq. rewrite Heq in Hfresh. destruct Hcomp as (Hc & _). congruence.
  - exact Hfresh.
  - apply fresh_unused.
  - apply rebuilt_store_marker.
  - apply lookup_insert_eq.
  - intros i o Hi.
    assert (Hlt : i < length (map (replace_marker h componentId n) ops)).
    { rewrite length_map. by eapply lookup_lt_Some. }
    rewrite lookup_app_l by done.
    change (map (replace_marker h componentId n) ops)
      with (replace_marker h componentId n <$> ops).
    rewrite list_lookup_fmap, Hi. simpl. unfold replace_marker.
    split; intros Hm.
    + by rewrite bool_decide_eq_true_2.
    + by rewrite bool_decide_eq_false_2.
  - intros Hex. rewrite (proj2 (has_marker_true h componentId ops) Hex).
    by rewrite app_nil_r, length_map.
  - intros Hnone. rewrite replace_marker_none by done.
    by rewrite (proj2 (has_marker_false h componentId ops) Hnone).
Qed.

(** ** The composite invariant *)

Lemma markers_are_components (h : heap) (ops : list loc) (ids : list (option string)) :
  Forall2 (λ o id, ∃ cond, h !! o = Some (Component id cond)) ops ids →
  Forall (λ o, is_component h o = true) ops.
Proof.
  intros H. induction H as [|o i ops ids (cond & Ho) _ IH]; constructor; [| done].
  apply is_component_spec. eauto.
Qed.

Lemma composite_invariant_weaken (h h' : heap) (v : val) :
  h ⊆ h' → composite_invariant h v → composite_invariant h' v.
Proof.
  intros Hsub. destruct v as [|c]; [done |].
  intros (ops & ids & Hc & Hall & Hnd). exists ops, ids.
  split_and!; [by eapply lookup_weaken | | done].
  eapply List.Forall2_impl; [| exact Hall]. intros o i (cond & Ho).
  exists cond. by eapply lookup_weaken.
Qed.

(** The ids of the rebuilt array are the ids of the old one, with the given
    id added at the end when no marker had it. *)
Lemma rebuilt_markers (h h' : heap) (ops : list loc) (ids : list (option string))
    (id : option string) (n : loc) (p : val) :
  h ⊆ h' → h' !! n = Some (Component id p) →
  Forall2 (λ o i, ∃ cond, h !! o = Some (Component i cond)) ops ids →
  Forall2 (λ o i, ∃ cond, h' !! o = Some (Component i cond))
    (map (replace_marker h id n) ops ++ (if has_marker h id ops then [] else [n]))
    (ids ++ (if has_marker h id ops then [] else [id])).
Proof.
  intros Hsub Hn Hall. apply Forall2_app.
  - change (map (replace_marker h id n) ops) with (replace_marker h id n <$> ops).
    apply Forall2_fmap_l. eapply List.Forall2_impl; [| exact Hall].
    intros o i (cond & Ho). simpl. unfold replace_marker.
    assert (Hid : marker_id h o = Some i) by (apply marker_id_Some; eauto).
    rewrite Hid. case_bool_decide as E.
    + injection E as ->. eauto.
    + exists cond. by eapply lookup_weaken.
  - destruct (has_marker h id ops); [constructor |].
    constructor; [eauto | constructor].
Qed.

Lemma absent_id (h : heap) (ops : list loc) (ids : list (option string))
    (id : option string) :
  Forall2 (λ o i, ∃ cond, h !! o = Some (Component i cond)) ops ids →
  has_marker h id ops = false → id ∉ ids.
Proof.
  intros Hall Hno Hin.
  pose proof (proj1 (has_marker_false h id ops) Hno) as Hno'. clear Hno.
  apply list_elem_of_lookup in Hin as (k & Hk).
  destruct (Forall2_lookup_r _ _ _ _ _ Hall Hk) as (o & Ho & cond & Hc).
  apply (Hno' o); [by eapply list_elem_of_lookup_2 |].
  apply marker_id_Some. eauto.
Qed.

(** C2: on a composite that satisfies the invariant the call returns, and
    what it returns satisfies the invariant again: a marker with the given id
    is overwritten, never doubled. *)
Theorem updateComponentCondition_invariant
    (cmp : heap → val → val → bool → bool) (h : heap) (C p : val)
    (componentId : option string) (compareUpdate : bool) :
  composite_invariant h C →
  ∃ r,
    (updateComponentCondition cmp h C p componentId compareUpdate).1 = Return r ∧
    r ≠ VNull ∧
    composite_invariant
      (updateComponentCondition cmp h C p componentId compareUpdate).2 r.
Proof.
  intros Hinv. destruct C as [|c].
  - rewrite updateComponentCondition_VNull. simpl.
    eexists. split_and!; [done | done |].
    exists [new_marker h], [componentId].
    split_and!; [apply lookup_insert_eq | | apply NoDup_singleton].
    constructor; [| constructor]. exists p. apply rebuilt_store_marker.
  - destruct Hinv as (ops & ids & Hc & Hall & Hnd).
    assert (Hcomp : composite h c "and" ops).
    { split_and!; [done | by left | by eapply markers_are_components]. }
    pose proof (marker_store_subseteq h componentId p) as Hsub.
    destruct (updateComponentCondition_composite cmp h c "and" ops p componentId
                compareUpdate Hcomp) as [[E _]|[E _]]; rewrite E; simpl.
    + exists (VRef c). split_and!; [done | done |].
      apply (composite_invariant_weaken h); [done |]. by exists ops, ids.
    + set (h1 := marker_store h componentId p) in *.
      eexists. split_and!; [done | done |].
      eexists _, _. split; [apply lookup_insert_eq |]. split.
      * eapply (rebuilt_markers h); [| | exact Hall].
        -- etrans; [exact Hsub |]. apply insert_subseteq, fresh_unused.
        -- apply rebuilt_store_marker.
      * destruct (has_marker h componentId ops) eqn:Hm; [by rewrite app_nil_r |].
        apply list.NoDup_app. split_and!; [done | | apply NoDup_singleton].
        intros i Hi Hi'. apply list_elem_of_singleton in Hi' as ->.
        by eapply absent_id.
Qed.

(** ** Structure errors *)

Lemma non_component_weaken (h h' : heap) (o : loc) :
  h ⊆ h' → non_component h o = true → non_component h' o = true.
Proof.
  intros Hsub H. unfold non_component in *.
  destruct (h !! o) as [obj|] eqn:Ho; [| discriminate].
  by rewrite (lookup_weaken _ _ _ _ Ho Hsub).
Qed.

(** The walk throws at an operand that is no marker, unless it returned early
    at a marker before it. *)
Lemma walk_Invalid (cmp : heap → val → val → bool → bool) (h : heap)
    (pre : list loc) (bad : loc) (post : list loc) (n : loc) (p : val)
    (id : option string) (cu : bool) (acc : list loc) (found : bool) :
  non_component h bad = true →
  (∀ o existing, o ∈ pre → h !! o = Some (Component id existing) →
     cu && same_condition cmp h existing p = false) →
  walk cmp h (pre ++ bad :: post) n p id cu acc found = Invalid.
Proof.
  intros Hbad. revert acc found.
  induction pre as [|o rest IH]; intros acc found Hpre; simpl.
  - unfold non_component in Hbad.
    by destruct (h !! bad) as [[| | | |i c]|].
  - destruct (h !! o) as [[| | | |i c]|] eqn:Ho; try reflexivity.
    assert (Hrest : ∀ o' existing, o' ∈ rest →
              h !! o' = Some (Component id existing) →
              cu && same_condition cmp h existing p = false).
    { intros o' ex Hin. apply Hpre, elem_of_cons. by right. }
    case_bool_decide as Hi; [| by apply IH].
    subst i. fold (same_condition cmp h c p).
    rewrite (Hpre o c); [by apply IH | apply elem_of_cons; by left | done].
Qed.

Lemma marker_store_Condition (h : heap) (id : option string) (p : val)
    (c : loc) (name : string) (ops : list loc) :
  marker_store h id p !! c = Some (Condition name ops) →
  h !! c = Some (Condition name ops).
Proof.
  rewrite marker_store_eq. intros H.
  apply lookup_insert_Some in H as [[_ H]|[_ H]]; [discriminate | done].
Qed.

(** C3, as stated: "every composite whose operand list holds an operand that
    is no Component marker fails with a structure error, wherever that operand
    sits relative to a matching, unchanged marker".  On
    [and(component("a", null), field("x"))] the update of "a" with null
    returns the composite: the walk returns at the unchanged marker and never
    reaches the Field. *)
Lemma structure_error_not_reached :
  store_a_field !! 1%positive = Some (Condition "and" [2%positive; 3%positive]) ∧
  non_component store_a_field 3%positive = true ∧
  (updateComponentCondition (compareConditionsSpec 8) store_a_field
     (VRef 1%positive) VNull (Some "a") true).1 = Return (VRef 1%positive).
Proof. split_and!; vm_compute; reflexivity. Qed.

(** C3, amended: a non-null composite that is no logical Condition makes the
    call throw; and a logical Condition with an operand that is no Component
    marker makes it throw, provided the walk reaches that operand: either
    [compareUpdate] is off, or no marker before it has the given id and a
    condition the comparator reports equal to the new one. *)
Theorem updateComponentCondition_structure_error
    (cmp : heap → val → val → bool → bool) (h : heap) (c : loc) (p : val)
    (componentId : option string) (compareUpdate : bool) :
  ((∀ name ops, h !! c = Some (Condition name ops) → name ≠ "and" ∧ name ≠ "or") →
   (updateComponentCondition cmp h (VRef c) p componentId compareUpdate).1
   = Throw InvalidCurrentCondition) ∧
  (∀ name pre bad post,
     h !! c = Some (Condition name (pre ++ bad :: post)) →
     name = "and" ∨ name = "or" →
     non_component h bad = true →
     (∀ o existing, o ∈ pre →
        marker_store h componentId p !! o = Some (Component componentId existing) →
        compareUpdate &&
        same_condition cmp (marker_store h componentId p) existing p = false) →
     (updateComponentCondition cmp h (VRef c) p componentId compareUpdate).1
     = Throw InvalidComponentStructure).
Proof.
  pose proof (marker_store_subseteq h componentId p) as Hsub.
  split.
  - intros Hno. rewrite updateComponentCondition_ref. cbv zeta.
    destruct (isLogicalCondition _ _) eqn:E; [| reflexivity]. exfalso.
    apply isLogicalCondition_spec in E as (name & ops & Hc & Hname). simpl in Hc.
    apply marker_store_Condition in Hc. destruct (Hno name ops Hc). tauto.
  - intros name pre bad post Hc Hname Hbad Hpre.
    rewrite updateComponentCondition_ref. cbv zeta.
    pose proof (lookup_weaken _ _ _ _ Hc Hsub) as Hc1.
    assert (Hlog : isLogicalCondition (marker_store h componentId p) (VRef c) = true).
    { apply isLogicalCondition_spec. by exists name, (pre ++ bad :: post). }
    rewrite Hlog, Hc1. simpl.
    by rewrite walk_Invalid; [| eapply non_component_weaken |].
Qed.

(** ** Merging twice *)

Lemma replace_marker_components (h h' : heap) (id : option string) (n : loc)
    (ops : list loc) :
  h ⊆ h' → is_component h' n = true →
  Forall (λ o, is_component h o = true) ops →
  Forall (λ o, is_component h' o = true) (map (replace_marker h id n) ops).
Proof.
  intros Hsub Hn Hall. induction Hall as [|o rest Ho _ IH]; simpl; constructor; [| done].
  unfold replace_marker. case_bool_decide; [done |]. by eapply is_component_weaken.
Qed.

Lemma new_marker_in_rebuilt (h : heap) (id : option string) (n : loc) (ops : list loc) :
  n ∈ map (replace_marker h id n) ops ++ (if has_marker h id ops then [] else [n]).
Proof.
  apply elem_of_app. destruct (has_marker h id ops) eqn:Hm.
  - left. apply has_marker_true in Hm as (o & Hin & Ho).
    change (map (replace_marker h id n) ops) with (replace_marker h id n <$> ops).
    apply list_elem_of_fmap. exists o. split; [| done].
    unfold replace_marker. by rewrite bool_decide_eq_true_2.
  - right. apply elem_of_cons. by left.
Qed.

(** What a merge on a composite leaves behind: a composite again, among whose
    operands there is a marker with the given id that the comparator reports
    unchanged against the same condition, in whatever store extends the one
    the merge returned. *)
Lemma updateComponentCondition_settled
    (cmp : heap → val → val → bool → bool) (h : heap) (C p : val)
    (id : option string) :
  is_composite h C →
  (∀ h', h ⊆ h' → same_condition cmp h' p p = true) →
  (∀ h' h'' o i existing, h !! o = Some (Component i existing) →
     h ⊆ h' → h' ⊆ h'' →
     same_condition cmp h'' existing p = same_condition cmp h' existing p) →
  ∃ R name ops o existing,
    (updateComponentCondition cmp h C p id true).1 = Return (VRef R) ∧
    composite (updateComponentCondition cmp h C p id true).2 R name ops ∧
    o ∈ ops ∧
    (updateComponentCondition cmp h C p id true).2 !! o
    = Some (Component id existing) ∧
    same_condition cmp
      (marker_store (updateComponentCondition cmp h C p id true).2 id p)
      existing p = true.
Proof.
  intros HC Hrefl Hstable.
  set (h1 := marker_store h id p).
  set (n := new_marker h).
  pose proof (marker_store_subseteq h id p) as Hsub. fold h1 in Hsub.
  assert (Hsub2 : ∀ name ops, h ⊆ rebuilt_store h1 name ops).
  { intros. etrans; [exact Hsub |]. apply insert_subseteq, fresh_unused. }
  assert (Hn : ∀ name ops, is_component (rebuilt_store h1 name ops) n = true).
  { intros. apply is_component_spec. exists id, p. apply rebuilt_store_marker. }
  assert (Hp : ∀ name ops,
            same_condition cmp (marker_store (rebuilt_store h1 name ops) id p) p p
            = true).
  { intros. apply Hrefl. etrans; [apply Hsub2 |]. apply marker_store_subseteq. }
  destruct C as [|c].
  - rewrite updateComponentCondition_VNull. fold h1 n. simpl.
    exists (fresh (dom h1)), "and", [n], n, p. split_and!; try done.
    + split_and!; [apply lookup_insert_eq | by left |].
      constructor; [apply Hn | constructor].
    + apply elem_of_cons. by left.
    + apply rebuilt_store_marker.
  - destruct HC as (name & ops & Hcomp).
    pose proof Hcomp as (Hc & Hname & Hall).
    destruct (updateComponentCondition_composite cmp h c name ops p id true Hcomp)
      as [[E Hw]|[E _]]; rewrite E; simpl; fold h1 n.
    + fold h1 in Hw.
      apply walk_Skip_inv in Hw as (_ & o & existing & Hin & Ho1 & Hsame).
      assert (Ho : h !! o = Some (Component id existing)).
      { rewrite List.Forall_forall in Hall.
        pose proof (Hall o (proj1 (list_elem_of_In _ _) Hin)) as Hcmpnt.
        apply is_component_spec in Hcmpnt as (i & e & Ho).
        pose proof (lookup_weaken _ _ _ _ Ho Hsub) as Ho'. congruence. }
      exists c, name, ops, o, existing. split_and!; try done.
      * by eapply composite_weaken.
      * rewrite (Hstable h1 (marker_store h1 id p) o id existing); try done.
        apply marker_store_subseteq.
    + set (ops' := map _ _ ++ _).
      exists (fresh (dom h1)), name, ops', n, p. split_and!; try done.
      * split_and!; [apply lookup_insert_eq | done |].
        apply Forall_app. split.
        -- by apply (replace_marker_components h).
        -- destruct (has_marker h id ops); constructor; [done | constructor].
      * apply new_marker_in_rebuilt.
      * apply rebuilt_store_marker.
Qed.

(** ** The comparator of the spec on trees *)

Lemma forall2b_ext {A : Type} (f g : A → A → bool) (xs ys : list A) :
  (∀ x y, x ∈ xs → y ∈ ys → f x y = g x y) →
  forall2b f xs ys = forall2b g xs ys.
Proof.
  revert ys. induction xs as [|x xs IH]; intros [|y ys] H; simpl; try done.
  rewrite H by (apply elem_of_cons; by left).
  rewrite IH; [done |]. intros x' y' Hx Hy. apply H; apply elem_of_cons; by right.
Qed.

Lemma forall2b_refl {A : Type} (f : A → A → bool) (xs : list A) :
  (∀ x, x ∈ xs → f x x = true) → forall2b f xs xs = true.
Proof.
  induction xs as [|x xs IH]; intros H; simpl; [done |].
  rewrite H by (apply elem_of_cons; by left). simpl.
  apply IH. intros x' Hx. apply H, elem_of_cons. by right.
Qed.

Lemma tree_operand (depth : nat) (h : heap) (ops : list loc) (o : loc) :
  forallb (λ o, tree depth h (VRef o)) ops = true → o ∈ ops →
  tree depth h (VRef o) = true.
Proof.
  intros H Hin. rewrite forallb_forall in H. by apply H, list_elem_of_In.
Qed.

Lemma tree_object (depth : nat) (h : heap) (l : loc) :
  tree depth h (VRef l) = true → is_Some (h !! l).
Proof.
  destruct depth as [|depth]; simpl; [discriminate |].
  destruct (h !! l); [eauto | discriminate].
Qed.

(** A tree stays the tree it is when objects are created. *)
Lemma tree_weaken (depth : nat) (h h' : heap) (v : val) :
  h ⊆ h' → tree depth h v = true → tree depth h' v = true.
Proof.
  intros Hsub. revert v. induction depth as [|depth IH]; intros v; simpl; [done |].
  destruct v as [|l]; [done |].
  destruct (h !! l) as [obj|] eqn:Hl; [| discriminate].
  rewrite (lookup_weaken _ _ _ _ Hl Hsub).
  destruct obj as [| | |name ops|i c]; try done.
  - rewrite !forallb_forall. intros H o Hin. by apply IH, H.
  - apply IH.
Qed.

Lemma all_null_components_weaken (depth : nat) (h h' : heap) (ops : list loc) :
  h ⊆ h' → forallb (λ o, tree depth h (VRef o)) ops = true →
  all_null_components h' ops = all_null_components h ops.
Proof.
  intros Hsub. induction ops as [|o rest IH]; simpl; [done |].
  intros H. apply andb_true_iff in H as [Ho Hrest].
  apply tree_object in Ho as [obj Ho].
  unfold is_null_component. rewrite Ho, (lookup_weaken _ _ _ _ Ho Hsub).
  by rewrite IH.
Qed.

Lemma simplifyCondition_weaken (depth : nat) (h h' : heap) (v : val) :
  h ⊆ h' → tree depth h v = true →
  simplifyCondition h' v = simplifyCondition h v.
Proof.
  intros Hsub Ht. destruct v as [|l]; [done |].
  destruct depth as [|depth]; [discriminate |]. simpl in Ht.
  unfold simplifyCondition. simpl.
  destruct (h !! l) as [obj|] eqn:Hl; [| discriminate].
  rewrite (lookup_weaken _ _ _ _ Hl Hsub).
  destruct obj as [| | |name ops|i c]; try done.
  case_bool_decide; [| done].
  by rewrite (all_null_components_weaken depth h h').
Qed.

Lemma simplifyCondition_tree (depth : nat) (h : heap) (v : val) :
  tree depth h v = true → tree depth h (simplifyCondition h v) = true.
Proof.
  intros Ht. destruct (simplifyCondition_cases h v) as [-> | ->]; [done |].
  by destruct depth.
Qed.

(** The answer of the comparator on two trees does not change when objects
    are created. *)
Lemma compareConditionsSpec_weaken (fuel : nat) (h h' : heap) (t : bool) :
  h ⊆ h' →
  ∀ (da db : nat) (a b : val),
    tree da h a = true → tree db h b = true →
    compareConditionsSpec fuel h' a b t = compareConditionsSpec fuel h a b t.
Proof.
  intros Hsub. induction fuel as [|fuel IH]; intros da db a b Ha Hb; [done |].
  simpl. destruct a as [|la], b as [|lb]; try done.
  - by rewrite (simplifyCondition_weaken db h h').
  - by rewrite (simplifyCondition_weaken da h h').
  - destruct da as [|da]; [discriminate |]. destruct db as [|db]; [discriminate |].
    simpl in Ha, Hb.
    destruct (h !! la) as [oa|] eqn:Hla; [| discriminate].
    destruct (h !! lb) as [ob|] eqn:Hlb; [| discriminate].
    rewrite (lookup_weaken _ _ _ _ Hla Hsub), (lookup_weaken _ _ _ _ Hlb Hsub).
    destruct oa as [| | |na opa|ia ca], ob as [| | |nb opb|ib cb]; try done.
    + f_equal. apply forall2b_ext. intros x y Hx Hy.
      apply (IH da db); by eapply tree_operand.
    + f_equal. by apply (IH da db).
Qed.

(** On a tree whose depth the fuel covers the comparator is reflexive. *)
Lemma compareConditionsSpec_refl (fuel : nat) (h : heap) (t : bool) (a : val) :
  tree fuel h a = true → compareConditionsSpec fuel h a a t = true.
Proof.
  revert a. induction fuel as [|fuel IH]; intros a Ha; [discriminate |].
  simpl in *. destruct a as [|l]; [done |].
  destruct (h !! l) as [[| | |name ops|i c]|]; try discriminate.
  - by apply bool_decide_eq_true.
  - apply andb_true_iff. split; by apply bool_decide_eq_true.
  - apply andb_true_iff. split; by apply bool_decide_eq_true.
  - rewrite !bool_decide_eq_true_2 by done. simpl.
    apply forall2b_refl. intros x Hx. by apply IH, (tree_operand _ _ ops).
  - rewrite bool_decide_eq_true_2 by done. simpl. by apply IH.
Qed.

Lemma same_condition_refl (fuel : nat) (h h' : heap) (p : val) :
  tree fuel h p = true → h ⊆ h' →
  same_condition (compareConditionsSpec fuel) h' p p = true.
Proof.
  intros Ht Hsub. unfold same_condition.
  by apply compareConditionsSpec_refl, simplifyCondition_tree, (tree_weaken _ h).
Qed.

Lemma same_condition_weaken (fuel da db : nat) (h h' : heap) (a b : val) :
  tree da h a = true → tree db h b = true → h ⊆ h' →
  same_condition (compareConditionsSpec fuel) h' a b
  = same_condition (compareConditionsSpec fuel) h a b.
Proof.
  intros Ha Hb Hsub. unfold same_condition.
  rewrite (simplifyCondition_weaken da h h' a), (simplifyCondition_weaken db h h' b) by done.
  apply (compareConditionsSpec_weaken fuel h h' true Hsub da db);
    by apply simplifyCondition_tree.
Qed.

Lemma spec_comparator_reflexive (fuel : nat) (h : heap) (p : val) :
  tree fuel h p = true →
  ∀ h', h ⊆ h' → same_condition (compareConditionsSpec fuel) h' p p = true.
Proof. intros Hp h'. by apply same_condition_refl. Qed.

Lemma spec_comparator_stable (fuel : nat) (h : heap) (p : val) :
  tree fuel h p = true → marker_trees fuel h →
  ∀ h' h'' o i existing, h !! o = Some (Component i existing) →
    h ⊆ h' → h' ⊆ h'' →
    same_condition (compareConditionsSpec fuel) h'' existing p
    = same_condition (compareConditionsSpec fuel) h' existing p.
Proof.
  intros Hp Hm h' h'' o i existing Ho Hsub Hsub'.
  rewrite (same_condition_weaken fuel fuel fuel h h'' existing p);
    [| by eapply Hm | done | by etrans].
  by rewrite (same_condition_weaken fuel fuel fuel h h' existing p);
    [| eapply Hm | |].
Qed.

(** With the comparator of the spec, on a store whose conditions are trees
    that the fuel covers, merging twice returns what merging once returned. *)
Lemma updateComponentCondition_twice_spec (fuel : nat) (h : heap) (C p : val)
    (id : option string) :
  is_composite h C → tree fuel h p = true → marker_trees fuel h →
  ∃ R,
    (updateComponentCondition (compareConditionsSpec fuel) h C p id true).1
    = Return (VRef R) ∧
    updateComponentCondition (compareConditionsSpec fuel)
      (updateComponentCondition (compareConditionsSpec fuel) h C p id true).2
      (VRef R) p id true
    = (Return (VRef R),
       marker_store
         (updateComponentCondition (compareConditionsSpec fuel) h C p id true).2
         id p).
Proof.
  intros HC Hp Hm.
  destruct (updateComponentCondition_settled (compareConditionsSpec fuel) h C p id HC
              (spec_comparator_reflexive fuel h p Hp)
              (spec_comparator_stable fuel h p Hp Hm))
    as (R & name & ops & o & existing & HR & Hcomp & Hin & Ho & Hsame).
  exists R. split; [done |].
  apply (updateComponentCondition_skip _ _ R name ops); [done |].
  by exists o, existing.
Qed.

Lemma store_ab_marker_trees : marker_trees 8 store_ab.
Proof.
  intros o i existing Ho. unfold store_ab in Ho.
  repeat (apply lookup_insert_Some in Ho as [[_ Ho]|[_ Ho]];
          [by (discriminate Ho || (injection Ho as _ <-)) |]).
  by rewrite lookup_empty in Ho.
Qed.

Lemma store_ab_composite :
  composite store_ab 1%positive "and" [2%positive; 3%positive].
Proof. split_and!; [done | by left | by repeat constructor]. Qed.

(** C7: with [compareUpdate] set, merging the same condition for the same id
    into what the first merge returned returns that same reference again and
    builds no new composite.  The comparator is the one part of the engine
    that is not among the sources; it is taken to report the new condition
    equal to itself and to give the same answer about an existing marker
    whatever objects are created later. *)
Theorem updateComponentCondition_idempotent
    (cmp : heap → val → val → bool → bool) (h : heap) (C p : val)
    (componentId : option string) :
  is_composite h C →
  (∀ h', h ⊆ h' → same_condition cmp h' p p = true) →
  (∀ h' h'' o i existing, h !! o = Some (Component i existing) →
     h ⊆ h' → h' ⊆ h'' →
     same_condition cmp h'' existing p = same_condition cmp h' existing p) →
  ∃ R,
    (updateComponentCondition cmp h C p componentId true).1 = Return (VRef R) ∧
    updateComponentCondition cmp
      (updateComponentCondition cmp h C p componentId true).2 (VRef R) p
      componentId true
    = (Return (VRef R),
       marker_store (updateComponentCondition cmp h C p componentId true).2
         componentId p).
Proof.
  intros HC Hrefl Hstable.
  destruct (updateComponentCondition_settled cmp h C p componentId HC Hrefl Hstable)
    as (R & name & ops & o & existing & HR & Hcomp & Hin & Ho & Hsame).
  exists R. split; [done |].
  apply (updateComponentCondition_skip cmp _ R name ops); [done |].
  by exists o, existing.
Qed.

Lemma updateComponentCondition_idempotent_witness :
  ∃ R,
    (updateComponentCondition (compareConditionsSpec 8) store_ab
       (VRef 1%positive) (VRef 4%positive) (Some "a") true).1 = Return (VRef R) ∧
    updateComponentCondition (compareConditionsSpec 8)
      (updateComponentCondition (compareConditionsSpec 8) store_ab
         (VRef 1%positive) (VRef 4%positive) (Some "a") true).2 (VRef R)
      (VRef 4%positive) (Some "a") true
    = (Return (VRef R),
       marker_store
         (updateComponentCondition (compareConditionsSpec 8) store_ab
            (VRef 1%positive) (VRef 4%positive) (Some "a") true).2
         (Some "a") (VRef 4%positive)).
Proof.
  apply (updateComponentCondition_idempotent (compareConditionsSpec 8) store_ab
           (VRef 1%positive) (VRef 4%positive) (Some "a")).
  - exists "and", [2%positive; 3%positive]. apply store_ab_composite.
  - apply spec_comparator_reflexive. reflexivity.
  - apply spec_comparator_stable; [reflexivity | apply store_ab_marker_trees].
Defined.

(** ** The theorems at work on the example stores *)

Lemma updateComponentCondition_unchanged_witness :
  (updateComponentCondition (compareConditionsSpec 8) store_ab (VRef 1%positive)
     VNull (Some "a") true).1 = Return (VRef 1%positive).
Proof.
  apply (updateComponentCondition_unchanged (compareConditionsSpec 8) store_ab
           1%positive "and" [2%positive; 3%positive] VNull (Some "a")).
  - apply store_ab_composite.
  - exists 2%positive, VNull.
    split_and!; [apply elem_of_cons; by left | reflexivity | vm_compute; reflexivity].
Defined.

Lemma updateComponentCondition_invariant_witness :
  ∃ r,
    (updateComponentCondition (compareConditionsSpec 8) store_ab (VRef 1%positive)
       (VRef 4%positive) (Some "b") true).1 = Return r ∧
    r ≠ VNull ∧
    composite_invariant
      (updateComponentCondition (compareConditionsSpec 8) store_ab
         (VRef 1%positive) (VRef 4%positive) (Some "b") true).2 r.
Proof.
  apply (updateComponentCondition_invariant (compareConditionsSpec 8) store_ab
           (VRef 1%positive) (VRef 4%positive) (Some "b") true).
  exists [2%positive; 3%positive], [Some "a"; Some "b"]. split_and!.
  - reflexivity.
  - repeat constructor; by exists VNull.
  - apply (bool_decide_unpack _). vm_compute. exact I.
Defined.

(** Merging a predicate for the id "a", whose marker held no condition: the
    call returns a new condition (reference 7) in which the new marker
    (reference 6) stands where the old marker "a" stood, before the marker
    "b", which is the operand it was. *)
Lemma updateComponentCondition_order_witness :
  (updateComponentCondition (compareConditionsSpec 8) store_ab (VRef 1%positive)
     (VRef 4%positive) (Some "a") true).1 = Return (VRef 7%positive) ∧
  (updateComponentCondition (compareConditionsSpec 8) store_ab (VRef 1%positive)
     (VRef 4%positive) (Some "a") true).2 !! 7%positive
  = Some (Condition "and" [6%positive; 3%positive]).
Proof.
  destruct (updateComponentCondition_order (compareConditionsSpec 8) store_ab
              1%positive "and" [2%positive; 3%positive] (VRef 4%positive)
              (Some "a") true)
    as (r & ops' & Hret & _ & _ & _ & _ & Hr & Hpos & Hlen & _).
  - apply store_ab_composite.
  - intros o existing Hin Ho.
    apply elem_of_cons in Hin as [-> | Hin].
    { injection Ho as <-. vm_compute. reflexivity. }
    apply elem_of_cons in Hin as [-> | Hin]; [discriminate |].
    by apply elem_of_nil in Hin.
  - assert (Er : r = 7%positive).
    { assert (E : Return (VRef r) = Return (VRef 7%positive))
        by (rewrite <- Hret; vm_compute; reflexivity).
      by injection E. }
    subst r. split; [exact Hret |].
    destruct (Hpos 0 2%positive eq_refl) as [H0 _].
    destruct (Hpos 1 3%positive eq_refl) as [_ H1].
    specialize (H0 eq_refl).
    assert (H1' : ops' !! 1 = Some 3%positive) by (apply H1; discriminate).
    assert (Hl : length ops' = 2).
    { apply Hlen. exists 2%positive. split; [| reflexivity].
      apply elem_of_cons. by left. }
    etrans; [exact Hr |]. f_equal. f_equal.
    destruct ops' as [|x [|y [|z rest]]]; try discriminate.
    simpl in H0, H1'. injection H0 as ->. injection H1' as ->. reflexivity.
Defined.

Lemma updateComponentCondition_structure_error_witness :
  (updateComponentCondition (compareConditionsSpec 8) store_a_field
     (VRef 1%positive) VNull (Some "a") false).1 = Throw InvalidComponentStructure.
Proof.
  apply (proj2 (updateComponentCondition_structure_error (compareConditionsSpec 8)
                  store_a_field 1%positive VNull (Some "a") false)
           "and" [2%positive] 3%positive []).
  - reflexivity.
  - by left.
  - reflexivity.
  - intros o existing _ _. reflexivity.
Defined.

Lemma updateComponentCondition_no_compare_witness :
  ∃ r ops',
    (updateComponentCondition (compareConditionsSpec 8) store_ab (VRef 1%positive)
       VNull (Some "a") false).1 = Return (VRef r) ∧
    r ≠ 1%positive ∧ store_ab !! r = None ∧
    (updateComponentCondition (compareConditionsSpec 8) store_ab (VRef 1%positive)
       VNull (Some "a") false).2 !! r = Some (Condition "and" ops').
Proof.
  apply (proj2 (updateComponentCondition_no_compare (compareConditionsSpec 8)
                  store_ab 1%positive VNull (Some "a"))
           "and" [2%positive; 3%positive]).
  apply store_ab_composite.
Defined.

(** ** The scenarios of the spec *)

(** Merging the age predicate into the empty composite gives
    [and(component("ageFilter", ge(field(age), value(Int, 18))))]: the marker
    at reference 4, the composite at reference 5. *)
Example scenario_first_merge :
  let r := updateComponentCondition (compareConditionsSpec 8) store_age VNull
             (VRef 1%positive) (Some "ageFilter") true in
  r.1 = Return (VRef 5%positive) ∧
  r.2 !! 5%positive = Some (Condition "and" [4%positive]) ∧
  r.2 !! 4%positive = Some (Component (Some "ageFilter") (VRef 1%positive)).
Proof. split_and!; vm_compute; reflexivity. Qed.

(** Merging the same predicate again returns the same reference. *)
Example scenario_same_predicate :
  let r := updateComponentCondition (compareConditionsSpec 8) store_age VNull
             (VRef 1%positive) (Some "ageFilter") true in
  (updateComponentCondition (compareConditionsSpec 8) r.2 (VRef 5%positive)
     (VRef 1%positive) (Some "ageFilter") true).1 = Return (VRef 5%positive).
Proof. vm_compute. reflexivity. Qed.

(** Clearing the filter gives a new composite
    [and(component("ageFilter", null))], at another reference. *)
Example scenario_cleared :
  let r := updateComponentCondition (compareConditionsSpec 8) store_age VNull
             (VRef 1%positive) (Some "ageFilter") true in
  let r' := updateComponentCondition (compareConditionsSpec 8) r.2
              (VRef 5%positive) VNull (Some "ageFilter") true in
  r'.1 = Return (VRef 7%positive) ∧
  r'.2 !! 7%positive = Some (Condition "and" [6%positive]) ∧
  r'.2 !! 6%positive = Some (Component (Some "ageFilter") VNull) ∧
  r'.2 !! 5%positive = Some (Condition "and" [4%positive]).
Proof. split_and!; vm_compute; reflexivity. Qed.

(** An "and" of anonymous placeholders simplifies to null and compares equal
    to null when empty counts as equal, and only then. *)
Example scenario_placeholders :
  simplifyCondition store_placeholders (VRef 1%positive) = VNull ∧
  compareConditionsSpec 8 store_placeholders (VRef 1%positive) VNull true = true ∧
  compareConditionsSpec 8 store_placeholders (VRef 1%positive) VNull false = false.
Proof. split_and!; vm_compute; reflexivity. Qed.

(** ** More on the merge engine *)

(** Simplifying twice is simplifying once. *)
Theorem simplifyCondition_idempotent (h : heap) (n : val) :
  simplifyCondition h (simplifyCondition h n) = simplifyCondition h n.
Proof.
  destruct (simplifyCondition_cases h n) as [E|E]; rewrite E; [exact E | reflexivity].
Qed.

Lemma walk_compareUpdate (cmp : heap → val → val → bool → bool) (h : heap)
    (ops : list loc) (n : loc) (p : val) (id : option string) (acc : list loc)
    (found : bool) :
  walk cmp h ops n p id true acc found = Skip ∨
  walk cmp h ops n p id true acc found = walk cmp h ops n p id false acc found.
Proof.
  revert acc found. induction ops as [|o rest IH]; intros acc found; simpl.
  - by right.
  - destruct (h !! o) as [[| | | |i c]|]; try by right.
    case_bool_decide; [| apply IH].
    destruct (cmp h _ _ true); [by left | apply IH].
Qed.

(** [compareUpdate] adds the early return and nothing else: with it the call
    either returns the composite it was given, having created only the marker
    it throws away, or does exactly what it does without it, in result, error
    and store. *)
Theorem updateComponentCondition_compareUpdate
    (cmp : heap → val → val → bool → bool) (h : heap) (C p : val)
    (componentId : option string) :
  updateComponentCondition cmp h C p componentId true
  = (Return C, marker_store h componentId p) ∨
  updateComponentCondition cmp h C p componentId true
  = updateComponentCondition cmp h C p componentId false.
Proof.
  destruct C as [|c].
  - right. by rewrite !updateComponentCondition_VNull.
  - rewrite !updateComponentCondition_ref. cbv zeta.
    destruct (negb _); [by right |].
    destruct (marker_store h componentId p !! c) as [[| | |name ops|]|]; try by right.
    destruct (walk_compareUpdate cmp (marker_store h componentId p) ops
                (new_marker h) p componentId [] false) as [E|E]; rewrite E.
    + by left.
    + by right.
Qed.

(** The call never returns null, whatever it is given: the result of a merge
    is always a condition object. *)
Theorem updateComponentCondition_not_null
    (cmp : heap → val → val → bool → bool) (h : heap) (C p : val)
    (componentId : option string) (compareUpdate : bool) :
  (updateComponentCondition cmp h C p componentId compareUpdate).1 ≠ Return VNull.
Proof.
  destruct C as [|c].
  - by rewrite updateComponentCondition_VNull.
  - rewrite updateComponentCondition_ref. cbv zeta.
    destruct (negb _); [done |].
    destruct (marker_store h componentId p !! c) as [[| | |name ops|]|]; try done.
    by destruct (walk _ _ _ _ _ _ _ _ _).
Qed.

(** What a merge returns is a composite again and has a marker with the id
    that was merged. *)
Lemma updateComponentCondition_has_marker
    (cmp : heap → val → val → bool → bool) (h : heap) (C p : val)
    (id : option string) (cu : bool) :
  is_composite h C →
  ∃ R name ops,
    (updateComponentCondition cmp h C p id cu).1 = Return (VRef R) ∧
    composite (updateComponentCondition cmp h C p id cu).2 R name ops ∧
    has_marker (updateComponentCondition cmp h C p id cu).2 id ops = true.
Proof.
  intros HC.
  set (h1 := marker_store h id p).
  set (n := new_marker h).
  pose proof (marker_store_subseteq h id p) as Hsub. fold h1 in Hsub.
  assert (Hn : ∀ name ops, is_component (rebuilt_store h1 name ops) n = true).
  { intros. apply is_component_spec. exists id, p. apply rebuilt_store_marker. }
  assert (Hid : ∀ name ops, marker_id (rebuilt_store h1 name ops) n = Some id).
  { intros. apply marker_id_Some. exists p. apply rebuilt_store_marker. }
  destruct C as [|c].
  - rewrite updateComponentCondition_VNull. fold h1 n. simpl.
    exists (fresh (dom h1)), "and", [n]. split_and!; try done.
    + split_and!; [apply lookup_insert_eq | by left |].
      constructor; [apply Hn | constructor].
    + apply has_marker_true. exists n. split; [apply elem_of_cons; by left | apply Hid].
  - destruct HC as (name & ops & Hcomp).
    pose proof Hcomp as (Hc & Hname & Hall).
    destruct (updateComponentCondition_composite cmp h c name ops p id cu Hcomp)
      as [[E Hw]|[E _]]; rewrite E; simpl; fold h1 n.
    + fold h1 in Hw.
      apply walk_Skip_inv in Hw as (_ & o & existing & Hin & Ho1 & _).
      exists c, name, ops. split_and!; [done | by eapply composite_weaken |].
      apply has_marker_true. exists o. split; [done |].
      apply marker_id_Some. eauto.
    + set (ops' := map _ _ ++ _).
      exists (fresh (dom h1)), name, ops'. split_and!; [done | |].
      * split_and!; [apply lookup_insert_eq | done |].
        apply Forall_app. split.
        -- apply (replace_marker_components h); [| apply Hn | done].
           etrans; [exact Hsub |]. apply insert_subseteq, fresh_unused.
        -- destruct (has_marker h id ops); constructor; [apply Hn | constructor].
      * apply has_marker_true. exists n. split; [apply new_marker_in_rebuilt | apply Hid].
Qed.

(** What a merge returns, on whatever input it returns at all, is a Condition
    that has a marker with the id that was merged among its operands. *)
Lemma updateComponentCondition_returned_marker
    (cmp : heap → val → val → bool → bool) (h : heap) (C p : val)
    (id : option string) (cu : bool) (R : loc) :
  (updateComponentCondition cmp h C p id cu).1 = Return (VRef R) →
  ∃ name ops,
    (updateComponentCondition cmp h C p id cu).2 !! R = Some (Condition name ops) ∧
    has_marker (updateComponentCondition cmp h C p id cu).2 id ops = true.
Proof.
  set (h1 := marker_store h id p).
  set (n := new_marker h).
  assert (Hid : ∀ name ops, marker_id (rebuilt_store h1 name ops) n = Some id).
  { intros. apply marker_id_Some. exists p. apply rebuilt_store_marker. }
  destruct C as [|c].
  - rewrite updateComponentCondition_VNull. fold h1 n. simpl. intros [= <-].
    exists "and", [n]. split; [apply lookup_insert_eq |].
    apply has_marker_true. exists n. split; [apply elem_of_cons; by left | apply Hid].
  - rewrite updateComponentCondition_ref. cbv zeta. fold h1 n.
    destruct (negb _); [discriminate |].
    destruct (h1 !! c) as [[| | |name ops|]|] eqn:Hc; try discriminate.
    destruct (walk _ _ _ _ _ _ _ _ _) as [|cc found|] eqn:Hw; simpl; [| | discriminate].
    + intros [= <-]. exists name, ops. split; [done |].
      apply walk_Skip_inv in Hw as (_ & o & existing & Hin & Ho & _).
      apply has_marker_true. exists o. split; [done |]. apply marker_id_Some. eauto.
    + intros [= <-]. apply walk_Rebuilt in Hw as (-> & -> & _). simpl.
      eexists name, _. split; [apply lookup_insert_eq |].
      apply has_marker_true. exists n. split; [| apply Hid].
      pose proof (new_marker_in_rebuilt h1 id n ops) as Hin.
      destruct (has_marker h1 id ops); [by rewrite app_nil_r in Hin | done].
Qed.

(** A merge for an id on a Condition that has a marker with that id, if it
    returns, returns a Condition of the same name with as many operands. *)
Lemma updateComponentCondition_marked_length
    (cmp : heap → val → val → bool → bool) (h : heap) (R : loc) (name : string)
    (ops : list loc) (q : val) (id : option string) (cu : bool) (R' : loc) :
  h !! R = Some (Condition name ops) →
  has_marker h id ops = true →
  (updateComponentCondition cmp h (VRef R) q id cu).1 = Return (VRef R') →
  ∃ ops',
    (updateComponentCondition cmp h (VRef R) q id cu).2 !! R'
    = Some (Condition name ops') ∧
    length ops' = length ops.
Proof.
  intros HR Hm.
  set (h1 := marker_store h id q).
  set (n := new_marker h).
  assert (Hm1 : has_marker h1 id ops = true).
  { apply has_marker_true in Hm as (o & Hin & Ho).
    apply marker_id_Some in Ho as (existing & Ho).
    apply has_marker_true. exists o. split; [done |].
    apply marker_id_Some. exists existing. by apply marker_store_old. }
  rewrite updateComponentCondition_ref. cbv zeta. fold h1 n.
  destruct (negb _); [discriminate |].
  assert (HR1 : h1 !! R = Some (Condition name ops)) by by apply marker_store_old.
  rewrite HR1.
  destruct (walk _ _ _ _ _ _ _ _ _) as [|cc found|] eqn:Hw; simpl; [| | discriminate].
  - intros [= <-]. exists ops. split; [| done]. by apply marker_store_old.
  - intros [= <-]. apply walk_Rebuilt in Hw as (-> & -> & _).
    rewrite Hm1. simpl. eexists. split; [apply lookup_insert_eq |]. apply length_map.
Qed.

(** Updating the same id again never makes the composite longer: once a merge
    for an id has returned, a further merge for that id, with whatever
    condition and flag, if it returns, returns a condition of the same name
    with as many operands; and when the first merge is given null or a
    composite (a logical Condition whose operands are all markers), both merges
    do return.  Without that, the first merge can return by the early exit and
    the second throw at an operand that is no marker. *)
Theorem updateComponentCondition_same_id_same_length
    (cmp : heap → val → val → bool → bool) (h : heap) (C p q : val)
    (componentId : option string) (cu cu' : bool) :
  (∀ R R',
     (updateComponentCondition cmp h C p componentId cu).1 = Return (VRef R) →
     (updateComponentCondition cmp
        (updateComponentCondition cmp h C p componentId cu).2 (VRef R) q
        componentId cu').1 = Return (VRef R') →
     ∃ name ops ops',
       (updateComponentCondition cmp h C p componentId cu).2 !! R
       = Some (Condition name ops) ∧
       (updateComponentCondition cmp
          (updateComponentCondition cmp h C p componentId cu).2 (VRef R) q
          componentId cu').2 !! R' = Some (Condition name ops') ∧
       length ops' = length ops) ∧
  (is_composite h C →
   ∃ R R',
     (updateComponentCondition cmp h C p componentId cu).1 = Return (VRef R) ∧
     (updateComponentCondition cmp
        (updateComponentCondition cmp h C p componentId cu).2 (VRef R) q
        componentId cu').1 = Return (VRef R')).
Proof.
  split.
  - intros R R' HR HR'.
    destruct (updateComponentCondition_returned_marker cmp h C p componentId cu R HR)
      as (name & ops & Hc & Hm).
    destruct (updateComponentCondition_marked_length cmp _ R name ops q componentId
                cu' R' Hc Hm HR') as (ops' & Hc' & Hlen).
    by exists name, ops, ops'.
  - intros HC.
    destruct (updateComponentCondition_has_marker cmp h C p componentId cu HC)
      as (R & name & ops & HR & Hcomp & _).
    exists R.
    destruct (updateComponentCondition_composite cmp _ R name ops q componentId cu'
                Hcomp) as [[E _]|[E _]]; rewrite E; simpl; eauto.
Qed.

(** Adding the marker "c" to the two markers of the example and then clearing
    it: both calls return, and the second result has three operands as the
    first. *)
Lemma updateComponentCondition_same_id_same_length_witness :
  ∃ R R' name ops ops',
    (updateComponentCondition (compareConditionsSpec 8) store_ab (VRef 1%positive)
       (VRef 4%positive) (Some "c") true).1 = Return (VRef R) ∧
    (updateComponentCondition (compareConditionsSpec 8) store_ab (VRef 1%positive)
       (VRef 4%positive) (Some "c") true).2 !! R = Some (Condition name ops) ∧
    (updateComponentCondition (compareConditionsSpec 8)
       (updateComponentCondition (compareConditionsSpec 8) store_ab
          (VRef 1%positive) (VRef 4%positive) (Some "c") true).2 (VRef R) VNull
       (Some "c") false).1 = Return (VRef R') ∧
    (updateComponentCondition (compareConditionsSpec 8)
       (updateComponentCondition (compareConditionsSpec 8) store_ab
          (VRef 1%positive) (VRef 4%positive) (Some "c") true).2 (VRef R) VNull
       (Some "c") false).2 !! R' = Some (Condition name ops') ∧
    length ops' = length ops.
Proof.
  destruct (updateComponentCondition_same_id_same_length (compareConditionsSpec 8)
              store_ab (VRef 1%positive) (VRef 4%positive) VNull (Some "c") true false)
    as [Hlen Hret].
  destruct Hret as (R & R' & HR & HR').
  { exists "and", [2%positive; 3%positive]. apply store_ab_composite. }
  destruct (Hlen R R' HR HR') as (name & ops & ops' & H1 & H2 & H3).
  by exists R, R', name, ops, ops'.
Defined.

(** The precondition of the second part is needed: on
    and(component("a", null), field("x")) a merge of null for "a" returns the
    composite by the early exit, before the operand that is no marker is
    looked at, and a further merge for "a" that changes the condition
    throws. *)
Example updateComponentCondition_again_throws :
  (updateComponentCondition (compareConditionsSpec 8) store_a_field
     (VRef 1%positive) VNull (Some "a") true).1 = Return (VRef 1%positive) ∧
  (updateComponentCondition (compareConditionsSpec 8)
     (updateComponentCondition (compareConditionsSpec 8) store_a_field
        (VRef 1%positive) VNull (Some "a") true).2
     (VRef 1%positive) (VRef 3%positive) (Some "a") true).1
  = Throw InvalidComponentStructure.
Proof. split; vm_compute; reflexivity. Qed.

(** * The tree widget *)

(** ** findItemIndex *)

Lemma findItemIndex_from_spec (items : list selection) (selectionId : selection) :
  ∀ i : Z,
    (findItemIndex_from i items selectionId = (-1)%Z ∧ selectionId ∉ items) ∨
    (∃ k : nat,
       findItemIndex_from i items selectionId = (i + Z.of_nat k)%Z ∧
       items !! k = Some selectionId ∧
       ∀ j : nat, (j < k)%nat → items !! j ≠ Some selectionId).
Proof.
  induction items as [|item rest IH]; intros i; simpl.
  - left. split; [done |]. apply not_elem_of_nil.
  - case_bool_decide as E.
    + right. exists 0%nat. subst item.
      split_and!; [lia | done | intros j Hj; lia].
    + destruct (IH (i + 1)%Z) as [[Hr Hn]|(k & Hr & Hk & Hfirst)].
      * left. split; [done |]. apply not_elem_of_cons. split; [congruence | done].
      * right. exists (S k). split_and!; [lia | done |].
        intros [|j] Hj; simpl; [congruence | apply Hfirst; lia].
Qed.

(** [findItemIndex] returns -1 when no item has the selection id, and
    otherwise the index of the first item that has it. *)
Theorem findItemIndex_spec (items : list selection) (selectionId : selection) :
  (findItemIndex items selectionId = (-1)%Z ∧ selectionId ∉ items) ∨
  (∃ k : nat,
     findItemIndex items selectionId = Z.of_nat k ∧
     items !! k = Some selectionId ∧
     ∀ j : nat, (j < k)%nat → items !! j ≠ Some selectionId).
Proof.
  destruct (findItemIndex_from_spec items selectionId 0%Z) as [H|(k & Hr & H)].
  - by left.
  - right. exists k. split; [| done]. unfold findItemIndex. lia.
Qed.

(** ** Keyboard movement *)

Lemma item_at_lookup (items : list selection) (k : nat) :
  item_at items (Z.of_nat k) = items !! k.
Proof.
  unfold item_at. rewrite bool_decide_eq_true_2 by lia. by rewrite Nat2Z.id.
Qed.

Lemma item_at_in_range (items : list selection) (i : Z) :
  (0 ≤ i < Z.of_nat (length items))%Z →
  ∃ item, item_at items i = Some item ∧ item ∈ items.
Proof.
  intros Hi. unfold item_at. rewrite bool_decide_eq_true_2 by lia.
  destruct (lookup_lt_is_Some_2 items (Z.to_nat i)) as [item Hitem]; [lia |].
  exists item. split; [done |]. by eapply list_elem_of_lookup_2.
Qed.

(** The position the movement starts from: the index of the selected item,
    or 0 with [focusCurrent] set when no item is selected. *)
Lemma findItemIndex_cases (items : list selection) (sel : selection) :
  (findItemIndex items sel = (-1)%Z ∧ sel ∉ items) ∨
  (∃ k : nat, findItemIndex items sel = Z.of_nat k ∧ items !! k = Some sel).
Proof.
  destruct (findItemIndex_from_spec items sel 0%Z) as [H|(k & Hr & Hk & _)].
  - by left.
  - right. exists k. split; [| done]. unfold findItemIndex. lia.
Qed.

(** A key within the context menu is ignored, whatever it is: nothing is
    prevented, focused or selected. *)
Lemma onKeyDown_dropdown_item (items : list selection) (sel : selection)
    (keyCode : Z) :
  onKeyDown true items sel keyCode
  = Done {| defaultPrevented := false; focused := None; selected := sel |}.
Proof. reflexivity. Qed.

(** Outside the context menu a movement key reaches the [default:] branch:
    it is none of return, cursor left and cursor right. *)
Lemma onKeyDown_movement_key (items : list selection) (sel : selection)
    (keyCode : Z) :
  is_Some (MOVEMENT_KEYS keyCode) →
  onKeyDown false items sel keyCode = onKeyDown_default items sel keyCode.
Proof.
  intros [n Hn]. unfold onKeyDown.
  rewrite !bool_decide_eq_false_2; [done | intros ->; discriminate Hn ..].
Qed.

(** On a tree that has items, a movement key pressed outside the context menu
    (the target is no dropdown-item) always leaves an item of the tree
    selected, whatever was selected before, and the default action of the key
    is prevented. *)
Theorem onKeyDown_movement_selects_item (items : list selection)
    (sel : selection) (keyCode : Z) :
  items ≠ [] → is_Some (MOVEMENT_KEYS keyCode) →
  ∃ r, onKeyDown false items sel keyCode = Done r ∧
       selected r ∈ items ∧ defaultPrevented r = true.
Proof.
  intros Hne [n Hn]. rewrite !onKeyDown_movement_key by (by eexists). unfold onKeyDown_default. rewrite Hn. cbv zeta.
  assert (Hlen : (0 < Z.of_nat (length items))%Z) by (destruct items; simpl; [done | lia]).
  destruct (findItemIndex_cases items sel) as [[-> Habs]|(k & -> & Hk)].
  - rewrite (bool_decide_eq_true_2 (-1 < 0)%Z) by lia.
    destruct (bool_decide _ && bool_decide _) eqn:E.
    + apply andb_true_iff in E as [E1 E2].
      apply bool_decide_eq_true in E1, E2.
      destruct (item_at_in_range items _ (conj E1 E2)) as (item & -> & Hin).
      by eexists.
    + destruct (item_at_in_range items 0%Z) as (item & -> & Hin); [lia |].
      by eexists.
  - rewrite (bool_decide_eq_false_2 (Z.of_nat k < 0)%Z) by lia.
    destruct (bool_decide _ && bool_decide _) eqn:E.
    + apply andb_true_iff in E as [E1 E2].
      apply bool_decide_eq_true in E1, E2.
      destruct (item_at_in_range items _ (conj E1 E2)) as (item & -> & Hin).
      by eexists.
    + eexists. split_and!; [done | | done]. simpl. by eapply list_elem_of_lookup_2.
Qed.

Lemma onKeyDown_movement_selects_item_witness :
  ∃ r, onKeyDown false [SelString "i-1"; SelString "i-2"] SelNull 40%Z = Done r ∧
       selected r ∈ [SelString "i-1"; SelString "i-2"] ∧ defaultPrevented r = true.
Proof.
  apply (onKeyDown_movement_selects_item [SelString "i-1"; SelString "i-2"] SelNull 40%Z).
  - discriminate.
  - by eexists.
Defined.

(** On a tree without items every movement key pressed outside the context
    menu ends in a TypeError: the fallback focuses [items[0]], which is
    [undefined]. *)
Theorem onKeyDown_movement_empty_tree (sel : selection) (keyCode : Z) :
  is_Some (MOVEMENT_KEYS keyCode) →
  onKeyDown false [] sel keyCode = TypeError.
Proof.
  intros [n Hn]. rewrite !onKeyDown_movement_key by (by eexists). unfold onKeyDown_default. rewrite Hn. cbv zeta.
  change (findItemIndex [] sel) with (-1)%Z.
  rewrite (bool_decide_eq_true_2 (-1 < 0)%Z) by lia.
  destruct (bool_decide _ && bool_decide _) eqn:E; [| reflexivity].
  apply andb_true_iff in E as [E1 E2]. apply bool_decide_eq_true in E1, E2.
  destruct n as [n|]; [destruct (bool_decide (n = 0)%Z) |]; simpl in E1, E2; lia.
Qed.

Lemma onKeyDown_movement_empty_tree_witness :
  onKeyDown false [] SelNull 36%Z = TypeError.
Proof.
  apply (onKeyDown_movement_empty_tree SelNull 36%Z). by eexists.
Defined.

(** Outside the context menu, Home selects and focuses the first item, End
    the last one, whatever is selected. *)
Theorem onKeyDown_movement_home_end (first : selection) (rest : list selection)
    (sel : selection) :
  onKeyDown false (first :: rest) sel 36%Z
  = Done {| defaultPrevented := true; focused := Some 0%Z; selected := first |} ∧
  ∀ item, last (first :: rest) = Some item →
    onKeyDown false (first :: rest) sel 35%Z
    = Done {| defaultPrevented := true;
              focused := Some (Z.of_nat (length rest));
              selected := item |}.
Proof.
  split.
  - rewrite !onKeyDown_movement_key by (by eexists). unfold onKeyDown_default.
    change (MOVEMENT_KEYS 36) with (Some (Steps 0)). cbv beta iota zeta.
    rewrite (bool_decide_eq_true_2 (0 = 0)%Z) by done.
    rewrite (bool_decide_eq_true_2 (0 ≤ 0)%Z) by done.
    rewrite bool_decide_eq_true_2 by (simpl; lia). simpl. reflexivity.
  - intros item Hlast. rewrite !onKeyDown_movement_key by (by eexists). unfold onKeyDown_default.
    change (MOVEMENT_KEYS 35) with (Some Infinity). cbv beta iota zeta.
    replace (Z.of_nat (length (first :: rest)) - 1)%Z with (Z.of_nat (length rest))
      by (simpl; lia).
    rewrite (bool_decide_eq_true_2 (0 ≤ _)%Z) by lia.
    rewrite bool_decide_eq_true_2 by (simpl; lia). simpl andb. cbv iota.
    rewrite item_at_lookup.
    rewrite last_lookup in Hlast. simpl in Hlast. by rewrite Hlast.
Qed.

Lemma findItemIndex_found (items : list selection) (sel : selection) (k : nat) :
  findItemIndex items sel = Z.of_nat k → items !! k = Some sel.
Proof.
  intros H. destruct (findItemIndex_cases items sel) as [[E _]|(k' & E & Hk)].
  - rewrite E in H. lia.
  - rewrite E in H. by replace k with k' by lia.
Qed.

Lemma findItemIndex_not_found (items : list selection) (sel : selection) :
  sel ∉ items → findItemIndex items sel = (-1)%Z.
Proof.
  intros H. destruct (findItemIndex_cases items sel) as [[E _]|(k' & E & Hk)]; [done |].
  exfalso. apply H. by eapply list_elem_of_lookup_2.
Qed.

(** Outside the context menu, with the selected item at index [k], cursor
    down selects and focuses the item after it and cursor up the item before
    it; at the last item cursor down, and at the first item cursor up, change
    nothing. *)
Theorem onKeyDown_movement_steps (items : list selection) (sel : selection)
    (k : nat) :
  findItemIndex items sel = Z.of_nat k →
  (∀ next, items !! S k = Some next →
     onKeyDown false items sel 40%Z
     = Done {| defaultPrevented := true; focused := Some (Z.of_nat (S k));
               selected := next |}) ∧
  (items !! S k = None →
     onKeyDown false items sel 40%Z
     = Done {| defaultPrevented := true; focused := None; selected := sel |}) ∧
  (∀ k' prev, k = S k' → items !! k' = Some prev →
     onKeyDown false items sel 38%Z
     = Done {| defaultPrevented := true; focused := Some (Z.of_nat k');
               selected := prev |}) ∧
  (k = 0%nat →
     onKeyDown false items sel 38%Z
     = Done {| defaultPrevented := true; focused := None; selected := sel |}).
Proof.
  intros Hpos. pose proof (findItemIndex_found items sel k Hpos) as Hk.
  pose proof (lookup_lt_Some _ _ _ Hk) as Hlt.
  rewrite !onKeyDown_movement_key by (by eexists). unfold onKeyDown_default.
  change (MOVEMENT_KEYS 40) with (Some (Steps 1)).
  change (MOVEMENT_KEYS 38) with (Some (Steps (-1))).
  cbv beta iota zeta. rewrite Hpos.
  rewrite (bool_decide_eq_false_2 (Z.of_nat k < 0)%Z) by lia.
  rewrite (bool_decide_eq_false_2 (1 = 0)%Z) by lia.
  rewrite (bool_decide_eq_false_2 (-1 = 0)%Z) by lia.
  split_and!.
  - intros next Hnext. pose proof (lookup_lt_Some _ _ _ Hnext).
    rewrite !bool_decide_eq_true_2 by lia. simpl andb. cbv iota.
    replace (Z.of_nat k + 1)%Z with (Z.of_nat (S k)) by lia.
    by rewrite item_at_lookup, Hnext.
  - intros Hnone. apply lookup_ge_None in Hnone.
    rewrite (bool_decide_eq_false_2 (_ < _)%Z) by lia.
    by rewrite andb_false_r.
  - intros k' prev -> Hprev.
    rewrite !bool_decide_eq_true_2 by lia. simpl andb. cbv iota.
    replace (Z.of_nat (S k') + -1)%Z with (Z.of_nat k') by lia.
    by rewrite item_at_lookup, Hprev.
  - intros ->. rewrite (bool_decide_eq_false_2 (0 ≤ _)%Z) by lia. reflexivity.
Qed.

Lemma onKeyDown_movement_steps_witness :
  onKeyDown false [SelString "i-1"; SelString "i-2"] (SelString "i-1") 40%Z
  = Done {| defaultPrevented := true; focused := Some 1%Z;
            selected := SelString "i-2" |}.
Proof.
  apply (proj1 (onKeyDown_movement_steps [SelString "i-1"; SelString "i-2"]
                  (SelString "i-1") 0%nat eq_refl)).
  reflexivity.
Defined.

(** Outside the context menu, with no item of the tree selected, cursor up
    selects the first item, and cursor down selects the second item when there
    is one and the first item otherwise: the movement is counted from
    index 0. *)
Theorem onKeyDown_movement_nothing_selected (first : selection)
    (rest : list selection) (sel : selection) :
  sel ∉ first :: rest →
  onKeyDown false (first :: rest) sel 38%Z
  = Done {| defaultPrevented := true; focused := Some 0%Z; selected := first |} ∧
  onKeyDown false (first :: rest) sel 40%Z
  = Done match rest with
         | second :: _ =>
             {| defaultPrevented := true; focused := Some 1%Z; selected := second |}
         | [] =>
             {| defaultPrevented := true; focused := Some 0%Z; selected := first |}
         end.
Proof.
  intros Hnot. pose proof (findItemIndex_not_found _ _ Hnot) as Hpos.
  rewrite !onKeyDown_movement_key by (by eexists). unfold onKeyDown_default.
  change (MOVEMENT_KEYS 40) with (Some (Steps 1)).
  change (MOVEMENT_KEYS 38) with (Some (Steps (-1))).
  cbv beta iota zeta. rewrite Hpos.
  rewrite (bool_decide_eq_true_2 (-1 < 0)%Z) by lia.
  rewrite (bool_decide_eq_false_2 (1 = 0)%Z) by lia.
  rewrite (bool_decide_eq_false_2 (-1 = 0)%Z) by lia.
  split.
  - rewrite (bool_decide_eq_false_2 (0 ≤ 0 + -1)%Z) by lia. reflexivity.
  - destruct rest as [|second rest].
    + rewrite (bool_decide_eq_false_2 (0 + 1 < _)%Z) by (simpl; lia).
      rewrite andb_false_r. reflexivity.
    + rewrite !bool_decide_eq_true_2 by (simpl; lia). reflexivity.
Qed.

Lemma onKeyDown_movement_nothing_selected_witness :
  onKeyDown false [SelString "i-1"; SelString "i-2"] SelNull 38%Z
  = Done {| defaultPrevented := true; focused := Some 0%Z;
            selected := SelString "i-1" |} ∧
  onKeyDown false [SelString "i-1"; SelString "i-2"] SelNull 40%Z
  = Done {| defaultPrevented := true; focused := Some 1%Z;
            selected := SelString "i-2" |}.
Proof.
  apply (onKeyDown_movement_nothing_selected (SelString "i-1") [SelString "i-2"] SelNull).
  intros H. apply elem_of_cons in H as [H|H]; [discriminate |].
  apply elem_of_cons in H as [H|H]; [discriminate |]. by apply elem_of_nil in H.
Defined.


(** ** Selection ids *)

Lemma increment_min (c : N) :
  (c ≤ MAX_COUNTER)%N → increment c = N.min (c + 1) MAX_COUNTER.
Proof. intros H. unfold increment. case_bool_decide. all: lia. Qed.

(** The id of call number [i] (from 0) when the counter starts at [c]. *)
Lemma selectionIds_eq (k : nat) (c : N) :
  (c ≤ MAX_COUNTER)%N →
  selectionIds k c
  = (λ i : nat, "i-" +:+ pretty (N.min (c + N.of_nat i) MAX_COUNTER)) <$> seq 0 k.
Proof.
  revert c. induction k as [|k IH]; intros c Hc; [done |].
  simpl. 
  rewrite IH by (rewrite increment_min by done; lia).
  f_equal.
  - f_equal; f_equal; lia.
  - rewrite <- fmap_S_seq, <- list_fmap_compose. apply list_fmap_ext.
    intros _ i _. simpl. f_equal; f_equal. rewrite increment_min by done. lia.
Qed.

Lemma selection_id_inj (a b : N) : "i-" +:+ pretty a = "i-" +:+ pretty b → a = b.
Proof. intros H. injection H as H. by apply (inj pretty). Qed.

(** The ids of successive calls of [nextSelectionId], the counter starting at
    1, are pairwise distinct for the first [2^53] calls, and no longer: from
    then on the counter stays where it is and the id repeats. *)
Theorem nextSelectionId_distinct (k : nat) :
  NoDup (selectionIds k 1%N) ↔ (N.of_nat k ≤ MAX_COUNTER)%N.
Proof.
  assert (H1 : (1 ≤ MAX_COUNTER)%N) by (unfold MAX_COUNTER; lia).
  rewrite selectionIds_eq by done. split.
  - intros Hnd.
    destruct (decide (N.of_nat k ≤ MAX_COUNTER)%N) as [|Hbig]; [done |]. exfalso.
    set (m := N.to_nat MAX_COUNTER).
    assert (Hm : (m < k)%nat) by (unfold m; lia).
    assert (Hm0 : (0 < m)%nat) by (unfold m; unfold MAX_COUNTER; lia).
    rewrite NoDup_alt in Hnd.
    assert (E : (m - 1)%nat = m); [| lia].
    apply (Hnd _ _ ("i-" +:+ pretty MAX_COUNTER)).
    + rewrite list_lookup_fmap, lookup_seq_lt by lia. cbv [fmap option_fmap option_map]; cbv beta iota.
      assert (Ea : N.min (1 + N.of_nat (0 + (m - 1))) MAX_COUNTER = MAX_COUNTER)
        by (unfold m; lia).
      rewrite Ea. exact eq_refl.
    + rewrite list_lookup_fmap, lookup_seq_lt by lia. cbv [fmap option_fmap option_map]; cbv beta iota.
      assert (Ea : N.min (1 + N.of_nat (0 + m)) MAX_COUNTER = MAX_COUNTER)
        by (unfold m; lia).
      rewrite Ea. exact eq_refl.
  - intros Hk. apply NoDup_fmap_2_strong; [| apply NoDup_seq].
    intros i j Hi Hj Hij. apply elem_of_seq in Hi, Hj.
    apply selection_id_inj in Hij. lia.
Qed.

(** * Pagination *)

(** [getTargetPage] throws for a button with a non-empty name that is none
    of the four labels, and for no other button. *)
Theorem getTargetPage_invalid (L : button_names) (btn : button)
    (currentPage numPages : Z) (s : string) :
  getTargetPage L btn currentPage numPages = InvalidButtonName s ↔
  btn_name btn = Some s ∧ s ≠ "" ∧
  s ∉ [BUTTON_FIRST L; BUTTON_PREV L; BUTTON_NEXT L; BUTTON_LAST L].
Proof.
  unfold getTargetPage, truthy_name.
  destruct (btn_name btn) as [name|]; simpl.
  - case_bool_decide as Hempty; simpl.
    + split; [discriminate |]. intros ([= ->] & Hs & _). done.
    + repeat case_bool_decide; try (split; [discriminate |];
        intros ([= ->] & _ & Hnot); exfalso; apply Hnot;
        rewrite !elem_of_cons; tauto).
      split.
      * intros [= ->]. split_and!; [done | done |].
        rewrite !elem_of_cons, elem_of_nil. tauto.
      * by intros ([= ->] & _ & _).
  - split; [discriminate |]. by intros (? & _).
Qed.

Lemma numPagesOf_gt (rowCount pageSize page : Z) :
  (0 < pageSize)%Z →
  (page < numPagesOf rowCount pageSize)%Z ↔ (page * pageSize < rowCount)%Z.
Proof.
  intros Hp. unfold numPagesOf.
  pose proof (Z.mul_div_le (- rowCount) pageSize Hp).
  pose proof (Z.mul_succ_div_gt (- rowCount) pageSize Hp).
  split; intros H1; nia.
Qed.

(** A button that is rendered as a link is neither active nor disabled and
    has an [href].  If the button has a name (a non-empty one) or an offset,
    the link leads to an existing page other than the current one: its
    [data-offset] is a multiple of the page size that lies within the rows.
    The one other button that is rendered as a link is a button with neither
    a name nor an offset: its target page is [NaN], which is neither the
    current page nor out of range, so its [data-offset] and its text are
    [NaN]. *)
Theorem renderButton_link (L : button_names) (btn : button)
    (offset pageSize rowCount : Z) (active disabled href : bool)
    (dataOffset : option Z) (text : string) :
  (0 < pageSize)%Z →
  renderButton L btn offset pageSize (numPagesOf rowCount pageSize)
  = inl (Item active disabled true href dataOffset text) →
  active = false ∧ disabled = false ∧ href = true ∧
  ((∃ page,
      dataOffset = Some (page * pageSize)%Z ∧
      (0 ≤ page < numPagesOf rowCount pageSize)%Z ∧
      page ≠ currentPageOf offset pageSize ∧
      (0 ≤ page * pageSize < rowCount)%Z) ∨
   (truthy_name (btn_name btn) = false ∧ btn_offset btn = None ∧
    dataOffset = None ∧ text = "NaN")) ∧
  (truthy_name (btn_name btn) = true ∨ is_Some (btn_offset btn) →
   ∃ page,
     dataOffset = Some (page * pageSize)%Z ∧
     (0 ≤ page < numPagesOf rowCount pageSize)%Z ∧
     page ≠ currentPageOf offset pageSize ∧
     (0 ≤ page * pageSize < rowCount)%Z).
Proof.
  intros Hp Hview.
  assert (Hmain : active = false ∧ disabled = false ∧ href = true ∧
    ((∃ page,
        dataOffset = Some (page * pageSize)%Z ∧
        (0 ≤ page < numPagesOf rowCount pageSize)%Z ∧
        page ≠ currentPageOf offset pageSize ∧
        (0 ≤ page * pageSize < rowCount)%Z) ∨
     (truthy_name (btn_name btn) = false ∧ btn_offset btn = None ∧
      dataOffset = None ∧ text = "NaN"))).
  { revert Hview. unfold renderButton. cbv zeta.
    destruct (getTargetPage _ _ _ _) as [[page|]|n] eqn:Ht; [| | discriminate].
    - set (c := currentPageOf offset pageSize).
      set (n := numPagesOf rowCount pageSize).
      destruct (bool_decide (page = c)) eqn:Ec, (bool_decide (page < 0)%Z) eqn:Eneg,
        (bool_decide (n ≤ page)%Z) eqn:Ebig, (truthy_name (btn_name btn));
        simpl; try discriminate.
      all: intros [= <- <- <- <- <-].
      all: apply bool_decide_eq_false in Ec, Eneg, Ebig.
      all: split_and!; try done; left; exists page; split_and!; try done; try lia.
      all: apply (numPagesOf_gt rowCount pageSize page Hp); fold n; lia.
    - unfold getTargetPage in Ht.
      destruct (truthy_name (btn_name btn)) eqn:Etr.
      { repeat case_bool_decide; discriminate. }
      destruct (btn_offset btn) as [k|] eqn:Eoff; [discriminate |].
      simpl. intros [= <- <- <- <- <-]. split_and!; try done. by right. }
  destruct Hmain as (Ha & Hd & Hh & Hcases). split_and!; try done.
  intros Hbtn. destruct Hcases as [Hpage|(Etr & Eoff & _)]; [done |].
  destruct Hbtn as [Hbtn|[k Hk]]; congruence.
Qed.

(** The button of the page two after the first one, of four pages of ten
    rows: a link to the offset 20. *)
Lemma renderButton_link_witness :
  ∃ page,
    Some 20%Z = Some (page * 10)%Z ∧
    (0 ≤ page < numPagesOf 35 10)%Z ∧
    page ≠ currentPageOf 0 10 ∧
    (0 ≤ page * 10 < 35)%Z.
Proof.
  apply (renderButton_link english_names {| btn_name := None; btn_offset := Some 2%Z |}
           0%Z 10%Z 35%Z false false true (Some 20%Z) "3").
  - lia.
  - vm_compute. reflexivity.
  - right. by eexists.
Defined.

(** A button with neither a name nor an offset is rendered as a link to the
    offset [NaN], with the text "NaN". *)
Example renderButton_no_name_no_offset :
  renderButton english_names {| btn_name := None; btn_offset := None |}
    0%Z 10%Z (numPagesOf 35 10)
  = inl (Item false false true true None "NaN").
Proof. vm_compute. reflexivity. Qed.

(** The view of a page number button, by cases on its offset. *)
Lemma renderButton_offset_view (L : button_names) (k offset pageSize numPages : Z) :
  renderButton L {| btn_name := None; btn_offset := Some k |} offset pageSize numPages
  = inl (let page := (currentPageOf offset pageSize + k)%Z in
         if bool_decide (k = 0)%Z then
           Item true false false false (Some (page * pageSize)%Z) (pretty (page + 1)%Z)
         else if bool_decide (page < 0 ∨ numPages ≤ page)%Z then Hidden
         else
           Item false false true true (Some (page * pageSize)%Z) (pretty (page + 1)%Z)).
Proof.
  unfold renderButton, getTargetPage. simpl. cbv zeta.
  set (c := currentPageOf offset pageSize).
  destruct (decide (k = 0)%Z) as [->|Ek].
  - rewrite (bool_decide_eq_true_2 (c + 0 = c)%Z) by lia.
    rewrite (bool_decide_eq_true_2 (0 = 0)%Z) by done. reflexivity.
  - rewrite (bool_decide_eq_false_2 (c + k = c)%Z) by lia.
    rewrite (bool_decide_eq_false_2 (k = 0)%Z) by done. simpl.
    destruct (decide (c + k < 0 ∨ numPages ≤ c + k)%Z) as [Eout|Ein].
    + rewrite (bool_decide_eq_true_2 (c + k < 0 ∨ numPages ≤ c + k)%Z) by done.
      destruct Eout.
      * rewrite (bool_decide_eq_true_2 (c + k < 0)%Z) by done. reflexivity.
      * rewrite (bool_decide_eq_true_2 (numPages ≤ c + k)%Z) by done.
        by rewrite orb_true_r.
    + rewrite (bool_decide_eq_false_2 (c + k < 0 ∨ numPages ≤ c + k)%Z) by done.
      rewrite (bool_decide_eq_false_2 (c + k < 0)%Z) by lia.
      rewrite (bool_decide_eq_false_2 (numPages ≤ c + k)%Z) by lia. reflexivity.
Qed.

(** A page number button shows the page at its offset from the current one:
    the current page itself as the active item, another existing page as a
    link to it, and nothing at all for a page that does not exist. *)
Theorem renderButton_offset (L : button_names) (k offset pageSize numPages : Z) :
  renderButton L {| btn_name := None; btn_offset := Some k |} offset pageSize numPages
  = inl (let page := (currentPageOf offset pageSize + k)%Z in
         if bool_decide (k = 0)%Z then
           Item true false false false (Some (page * pageSize)%Z) (pretty (page + 1)%Z)
         else if bool_decide (page < 0 ∨ numPages ≤ page)%Z then Hidden
         else
           Item false false true true (Some (page * pageSize)%Z) (pretty (page + 1)%Z)).
Proof. apply renderButton_offset_view. Qed.

Lemma distinct_names_ne (L : button_names) :
  distinct_names L →
  BUTTON_FIRST L ≠ "" ∧ BUTTON_PREV L ≠ "" ∧ BUTTON_NEXT L ≠ "" ∧ BUTTON_LAST L ≠ "" ∧
  BUTTON_PREV L ≠ BUTTON_FIRST L ∧ BUTTON_NEXT L ≠ BUTTON_FIRST L ∧
  BUTTON_NEXT L ≠ BUTTON_PREV L ∧ BUTTON_LAST L ≠ BUTTON_FIRST L ∧
  BUTTON_LAST L ≠ BUTTON_PREV L ∧ BUTTON_LAST L ≠ BUTTON_NEXT L.
Proof.
  intros [Hnd Hne]. rewrite !list.NoDup_cons, !not_elem_of_cons in Hnd.
  rewrite !not_elem_of_cons in Hne.
  destruct Hnd as ((? & ? & ? & _) & (? & ? & _) & (? & _) & _).
  destruct Hne as (? & ? & ? & ? & _).
  split_and!; congruence.
Qed.

(** With four different non-empty labels and the current page among the
    pages: First and Prev are links unless the current page is the first one,
    Next and Last are links unless it is the last one; otherwise they are
    shown disabled.  They are never hidden and never active, and they lead to
    page 0, the page before, the page after and the last page. *)
Theorem renderButton_named (L : button_names) (offset pageSize numPages : Z) :
  distinct_names L →
  (0 ≤ currentPageOf offset pageSize < numPages)%Z →
  let c := currentPageOf offset pageSize in
  let first := bool_decide (c = 0)%Z in
  let last := bool_decide (c = numPages - 1)%Z in
  renderButton L {| btn_name := Some (BUTTON_FIRST L); btn_offset := None |}
    offset pageSize numPages
  = inl (Item false first (negb first) (negb first) (Some 0%Z) (BUTTON_FIRST L)) ∧
  renderButton L {| btn_name := Some (BUTTON_PREV L); btn_offset := None |}
    offset pageSize numPages
  = inl (Item false first (negb first) (negb first) (Some ((c - 1) * pageSize)%Z)
           (BUTTON_PREV L)) ∧
  renderButton L {| btn_name := Some (BUTTON_NEXT L); btn_offset := None |}
    offset pageSize numPages
  = inl (Item false last (negb last) (negb last) (Some ((c + 1) * pageSize)%Z)
           (BUTTON_NEXT L)) ∧
  renderButton L {| btn_name := Some (BUTTON_LAST L); btn_offset := None |}
    offset pageSize numPages
  = inl (Item false last (negb last) (negb last) (Some ((numPages - 1) * pageSize)%Z)
           (BUTTON_LAST L)).
Proof.
  intros Hd Hc c first last.
  destruct (distinct_names_ne L Hd)
    as (Hf & Hp & Hn & Hl & Hpf & Hnf & Hnp & Hlf & Hlp & Hln).
  unfold renderButton, getTargetPage, truthy_name. simpl. fold c.
  rewrite !(bool_decide_eq_false_2 (_ = "")) by done. simpl.
  rewrite !(bool_decide_eq_true_2 (BUTTON_FIRST L = BUTTON_FIRST L)) by done.
  rewrite (bool_decide_eq_false_2 (BUTTON_PREV L = BUTTON_FIRST L)) by done.
  rewrite (bool_decide_eq_true_2 (BUTTON_PREV L = BUTTON_PREV L)) by done.
  rewrite (bool_decide_eq_false_2 (BUTTON_NEXT L = BUTTON_FIRST L)) by done.
  rewrite (bool_decide_eq_false_2 (BUTTON_NEXT L = BUTTON_PREV L)) by done.
  rewrite (bool_decide_eq_true_2 (BUTTON_NEXT L = BUTTON_NEXT L)) by done.
  rewrite (bool_decide_eq_false_2 (BUTTON_LAST L = BUTTON_FIRST L)) by done.
  rewrite (bool_decide_eq_false_2 (BUTTON_LAST L = BUTTON_PREV L)) by done.
  rewrite (bool_decide_eq_false_2 (BUTTON_LAST L = BUTTON_NEXT L)) by done.
  rewrite (bool_decide_eq_true_2 (BUTTON_LAST L = BUTTON_LAST L)) by done.
  simpl. rewrite !andb_false_r. simpl. rewrite !andb_true_r.
  rewrite (bool_decide_eq_false_2 (numPages ≤ 0)%Z) by lia.
  rewrite (bool_decide_eq_false_2 (c - 1 = c)%Z) by lia.
  rewrite (bool_decide_eq_false_2 (numPages ≤ c - 1)%Z) by lia.
  rewrite (bool_decide_eq_false_2 (c + 1 = c)%Z) by lia.
  rewrite (bool_decide_eq_false_2 (c + 1 < 0)%Z) by lia.
  rewrite (bool_decide_eq_false_2 (numPages - 1 < 0)%Z) by lia.
  rewrite (bool_decide_eq_false_2 (numPages ≤ numPages - 1)%Z) by lia.
  rewrite !orb_false_r. simpl. rewrite Z.mul_0_l.
  rewrite (bool_decide_ext (0 = c)%Z (c = 0)%Z) by lia.
  rewrite (bool_decide_ext (c - 1 < 0)%Z (c = 0)%Z) by lia.
  rewrite (bool_decide_ext (numPages ≤ c + 1)%Z (c = numPages - 1)%Z) by lia.
  rewrite (bool_decide_ext (numPages - 1 = c)%Z (c = numPages - 1)%Z) by lia.
  fold first last. done.
Qed.

Lemma english_names_distinct : distinct_names english_names.
Proof.
  split.
  - apply (bool_decide_unpack _). vm_compute. exact I.
  - apply (bool_decide_unpack _). vm_compute. exact I.
Qed.

Lemma renderButton_named_witness :
  renderButton english_names {| btn_name := Some "First"; btn_offset := None |}
    20%Z 10%Z 4%Z
  = inl (Item false false true true (Some 0%Z) "First").
Proof.
  apply (renderButton_named english_names 20%Z 10%Z 4%Z english_names_distinct).
  vm_compute. split; [discriminate | reflexivity].
Defined.

(** With a positive page size, [Pagination] shows no page buttons at all
    exactly when the rows fit on one page; the button config is not even
    looked at then. *)
Theorem Pagination_single_page (L : button_names) (buttonConfig : list button)
    (offset pageSize rowCount : Z) :
  (0 < pageSize)%Z →
  Pagination L buttonConfig offset pageSize rowCount = PageSizesOnly ↔
  (rowCount ≤ pageSize)%Z.
Proof.
  intros Hp. unfold Pagination. cbv zeta.
  pose proof (numPagesOf_gt rowCount pageSize 1 Hp) as H1.
  case_bool_decide as E.
  - split; [lia | done].
  - split; [| lia]. by destruct (renderButtons _ _ _ _ _).
Qed.

Lemma Pagination_single_page_witness :
  Pagination english_names (DEFAULT_BUTTON_CONFIG english_names) 0%Z
    (getPageSize (SizeLabel "All Rows")) 1000%Z = PageSizesOnly ↔
  (1000 ≤ getPageSize (SizeLabel "All Rows"))%Z.
Proof.
  apply (Pagination_single_page english_names (DEFAULT_BUTTON_CONFIG english_names)
           0%Z (getPageSize (SizeLabel "All Rows")) 1000%Z).
  reflexivity.
Defined.

(** A button named by one of the labels is rendered, never hidden and never
    active, whatever the labels are. *)
Lemma renderButton_label (L : button_names) (s : string)
    (offset pageSize numPages : Z) :
  s ∈ [BUTTON_FIRST L; BUTTON_PREV L; BUTTON_NEXT L; BUTTON_LAST L] →
  ∃ view,
    renderButton L {| btn_name := Some s; btn_offset := None |} offset pageSize numPages
    = inl view ∧ is_active view = false ∧ view ≠ Hidden.
Proof.
  intros Hs. unfold renderButton, getTargetPage, truthy_name. simpl.
  destruct (bool_decide (s = "")) eqn:Hempty; simpl.
  - eexists. split_and!; [done | done | done].
  - assert (Hcases : bool_decide (s = BUTTON_FIRST L) = true ∨
              bool_decide (s = BUTTON_PREV L) = true ∨
              bool_decide (s = BUTTON_NEXT L) = true ∨
              bool_decide (s = BUTTON_LAST L) = true).
    { rewrite !elem_of_cons, elem_of_nil in Hs.
      rewrite !bool_decide_eq_true. tauto. }
    destruct (bool_decide (s = BUTTON_FIRST L));
      [| destruct (bool_decide (s = BUTTON_PREV L));
         [| destruct (bool_decide (s = BUTTON_NEXT L));
            [| destruct (bool_decide (s = BUTTON_LAST L));
               [| exfalso; destruct Hcases as [?|[?|[?|?]]]; discriminate]]]].
    all: cbv zeta; simpl; rewrite ?andb_false_r; simpl.
    all: eexists; split_and!; [reflexivity | done | done].
Qed.

(** The default button bar has exactly one active item, whatever the labels
    are and wherever the offset points: the item of the page the offset lies
    on. *)
Theorem Pagination_default_one_active (L : button_names)
    (offset pageSize rowCount : Z) :
  (0 < pageSize < rowCount)%Z →
  ∃ views,
    Pagination L (DEFAULT_BUTTON_CONFIG L) offset pageSize rowCount = Buttons views ∧
    filter (λ view, is_active view = true) views
    = [Item true false false false
         (Some (currentPageOf offset pageSize * pageSize)%Z)
         (pretty (currentPageOf offset pageSize + 1)%Z)].
Proof.
  intros Hp. unfold Pagination. cbv zeta.
  set (n := numPagesOf rowCount pageSize).
  assert (Hn : ¬ (n ≤ 1)%Z).
  { pose proof (numPagesOf_gt rowCount pageSize 1 (proj1 Hp)). unfold n. lia. }
  rewrite (bool_decide_eq_false_2 _ Hn).
  unfold DEFAULT_BUTTON_CONFIG, renderButtons.
  destruct (renderButton_label L (BUTTON_FIRST L) offset pageSize n)
    as (v1 & -> & Ha1 & _); [rewrite !elem_of_cons; tauto |].
  destruct (renderButton_label L (BUTTON_PREV L) offset pageSize n)
    as (v2 & -> & Ha2 & _); [rewrite !elem_of_cons; tauto |].
  destruct (renderButton_label L (BUTTON_NEXT L) offset pageSize n)
    as (v3 & -> & Ha3 & _); [rewrite !elem_of_cons; tauto |].
  destruct (renderButton_label L (BUTTON_LAST L) offset pageSize n)
    as (v4 & -> & Ha4 & _); [rewrite !elem_of_cons; tauto |].
  rewrite !renderButton_offset_view. cbv zeta.
  set (c := currentPageOf offset pageSize).
  change (bool_decide (-3 = 0)%Z) with false.
  change (bool_decide (-2 = 0)%Z) with false.
  change (bool_decide (-1 = 0)%Z) with false.
  change (bool_decide (0 = 0)%Z) with true.
  change (bool_decide (1 = 0)%Z) with false.
  change (bool_decide (2 = 0)%Z) with false.
  change (bool_decide (3 = 0)%Z) with false.
  cbv iota. eexists. split; [reflexivity |].
  rewrite Z.add_0_r.
  assert (Hoff : ∀ (b : bool) d t,
            ¬ is_active (if b then Hidden else Item false false true true d t) = true)
    by (intros [] d t; discriminate).
  rewrite (filter_cons_False _ v1) by (rewrite Ha1; discriminate).
  rewrite (filter_cons_False _ v2) by (rewrite Ha2; discriminate).
  rewrite !(filter_cons_False _ (if _ : bool then Hidden else _)) by apply Hoff.
  rewrite filter_cons_True by done.
  rewrite !(filter_cons_False _ (if _ : bool then Hidden else _)) by apply Hoff.
  rewrite (filter_cons_False _ v3) by (rewrite Ha3; discriminate).
  rewrite (filter_cons_False _ v4) by (rewrite Ha4; discriminate).
  by rewrite filter_nil.
Qed.

Lemma Pagination_default_one_active_witness :
  ∃ views,
    Pagination english_names (DEFAULT_BUTTON_CONFIG english_names) 20%Z 10%Z 35%Z
    = Buttons views ∧
    filter (λ view, is_active view = true) views
    = [Item true false false false
         (Some (currentPageOf 20 10 * 10)%Z) (pretty (currentPageOf 20 10 + 1)%Z)].
Proof.
  apply (Pagination_default_one_active english_names 20%Z 10%Z 35%Z). lia.
Defined.

(** * Appending loaded rows *)

Section AppendRowsFacts.

Context {R Nm Q : Type} `{EqDecision Nm}.
Variable name_of : R → option Nm.

(** The inner loop finds the first row with the name, if there is one. *)
Lemma search_from_spec (rest : list R) (newName : option Nm) :
  ∀ j,
    (search_from name_of j rest newName = NotFound ∧
     newName ∉ map name_of rest) ∨
    (∃ (k : nat) (row : R),
       search_from name_of j rest newName = FoundAt row (j + k) ∧
       rest !! k = Some row ∧ name_of row = newName ∧
       ∀ i r, (i < k)%nat → rest !! i = Some r → name_of r ≠ newName).
Proof.
  induction rest as [|existing rest IH]; intros j; simpl.
  - left. split; [done |]. apply not_elem_of_nil.
  - case_bool_decide as E.
    + right. exists 0%nat, existing. rewrite Nat.add_0_r.
      split_and!; [done | done | done | intros i r Hi; lia].
    + destruct (IH (S j)) as [[Hr Hn]|(k & row & Hr & Hk & Hname & Hfirst)].
      * left. split; [done |]. apply not_elem_of_cons. split; [congruence | done].
      * right. exists (S k), row. rewrite Nat.add_succ_r.
        split_and!; [done | done | done |].
        intros [|i] r Hi; simpl; [intros [= <-]; done |].
        apply Hfirst. lia.
Qed.

Lemma search_not_found (existingRows : list R) (pos : nat) (new : R) :
  ¬ present name_of existingRows pos new →
  search name_of existingRows (Z.of_nat pos) (name_of new) = NotFound.
Proof.
  intros Hn. unfold search. rewrite bool_decide_eq_true_2 by lia. rewrite Nat2Z.id.
  destruct (search_from_spec (drop pos existingRows) (name_of new) pos)
    as [[Hr _]|(k & row & _ & Hk & Hname & _)]; [done |].
  exfalso. apply Hn. unfold present. rewrite <- Hname.
  apply list_elem_of_fmap_2. by eapply list_elem_of_lookup_2.
Qed.

Lemma search_found (existingRows : list R) (pos : nat) (new : R) :
  present name_of existingRows pos new →
  ∃ (j : nat) (row : R),
    search name_of existingRows (Z.of_nat pos) (name_of new) = FoundAt row j ∧
    (pos ≤ j)%nat ∧ existingRows !! j = Some row ∧ name_of row = name_of new ∧
    ∀ i r, (pos ≤ i < j)%nat → existingRows !! i = Some r → name_of r ≠ name_of new.
Proof.
  intros Hp. unfold search. rewrite bool_decide_eq_true_2 by lia. rewrite Nat2Z.id.
  destruct (search_from_spec (drop pos existingRows) (name_of new) pos)
    as [[_ Hn]|(k & row & Hr & Hk & Hname & Hfirst)]; [done |].
  exists (pos + k)%nat, row. rewrite lookup_drop in Hk.
  split_and!; [done | lia | done | done |].
  intros i r Hi Hr'. apply (Hfirst (i - pos)%nat r); [lia |].
  rewrite lookup_drop. by replace (pos + (i - pos))%nat with i by lia.
Qed.

(** The outer loop, for a position that is not negative: the new rows that
    are not present are added in order, and nothing is thrown. *)
Lemma merge_rows_spec (existingRows : list R) (pos : nat) (newRows : list R) :
  ∀ newArray ws,
    ∃ ws',
      merge_rows name_of existingRows (Z.of_nat pos) newRows newArray ws
      = (newArray ++ filter (λ new, ¬ present name_of existingRows pos new) newRows,
         ws ++ ws', false) ∧
      map newRow ws' = filter (present name_of existingRows pos) newRows ∧
      Forall (λ w,
        (pos ≤ index w)%nat ∧ existingRows !! index w = Some (existingRow w) ∧
        name_of (existingRow w) = name_of (newRow w) ∧
        ∀ i r, (pos ≤ i < index w)%nat → existingRows !! i = Some r →
               name_of r ≠ name_of (newRow w)) ws'.
Proof.
  induction newRows as [|new newRows IH]; intros newArray ws; simpl.
  - exists []. by rewrite !app_nil_r.
  - destruct (decide (present name_of existingRows pos new)) as [Hp|Hn].
    + destruct (search_found _ _ _ Hp) as (j & row & -> & Hj & Hrow & Hname & Hfirst).
      destruct (IH newArray (ws ++ [{| existingRow := row; index := j; newRow := new |}]))
        as (ws' & -> & Hnew & Hall).
      exists ({| existingRow := row; index := j; newRow := new |} :: ws').
      rewrite filter_cons_False by tauto. rewrite filter_cons_True by done.
      rewrite <- app_assoc. simpl. split_and!; [done | by rewrite Hnew |].
      constructor; [done | done].
    + rewrite (search_not_found _ _ _ Hn).
      destruct (IH (newArray ++ [new]) ws) as (ws' & -> & Hnew & Hall).
      exists ws'. rewrite filter_cons_True by done. rewrite filter_cons_False by done.
      rewrite <- app_assoc. simpl. done.
Qed.

(** Rows loaded for position [pos ≥ 0] are inserted at [pos], in their order,
    except those whose name a row at or after [pos] already has; the rows
    that were there all stay, in their places before and after the inserted
    ones; the query config is replaced, and nothing is thrown. *)
Theorem appendRows_inserts (values newValues : query_values (R := R) (Q := Q))
    (pos : nat) :
  let r := appendRows name_of values newValues (Z.of_nat pos) in
  threw r = false ∧
  queryConfig (values_after r) = queryConfig newValues ∧
  rows (values_after r)
  = take pos (rows values) ++
    filter (λ new, ¬ present name_of (rows values) pos new) (rows newValues) ++
    drop pos (rows values).
Proof.
  unfold appendRows. cbv zeta. simpl.
  rewrite bool_decide_eq_false_2 by lia.
  destruct (merge_rows_spec (rows values) pos (rows newValues)
              (slice_before (rows values) (Z.of_nat pos)) [])
    as (ws' & -> & _ & _).
  simpl. split_and!; [done | done |].
  unfold slice_before, slice_from. rewrite !bool_decide_eq_true_2 by lia.
  by rewrite Nat2Z.id, <- app_assoc.
Qed.

Lemma appendRows_rows_eq (values newValues : query_values (R := R) (Q := Q))
    (pos : nat) :
  rows (values_after (appendRows name_of values newValues (Z.of_nat pos)))
  = take pos (rows values) ++
    filter (λ new, ¬ present name_of (rows values) pos new) (rows newValues) ++
    drop pos (rows values).
Proof.
  unfold appendRows. cbv zeta. simpl.
  rewrite bool_decide_eq_false_2 by lia.
  destruct (merge_rows_spec (rows values) pos (rows newValues)
              (slice_before (rows values) (Z.of_nat pos)) [])
    as (ws' & -> & _ & _).
  simpl. unfold slice_before, slice_from. rewrite !bool_decide_eq_true_2 by lia.
  by rewrite Nat2Z.id, <- app_assoc.
Qed.

(** A loaded row whose name is already there does not get into the list: it
    is written into the property [j] of the first row at or after [pos] that
    has its name, [j] being the index of that row, and that row stays in the
    list. *)
Theorem appendRows_writes (values newValues : query_values (R := R) (Q := Q))
    (pos : nat) :
  let r := appendRows name_of values newValues (Z.of_nat pos) in
  map newRow (writes r) = filter (present name_of (rows values) pos) (rows newValues) ∧
  Forall (λ w,
    (pos ≤ index w)%nat ∧
    rows values !! index w = Some (existingRow w) ∧
    existingRow w ∈ rows (values_after r) ∧
    name_of (existingRow w) = name_of (newRow w) ∧
    ∀ i row, (pos ≤ i < index w)%nat → rows values !! i = Some row →
             name_of row ≠ name_of (newRow w)) (writes r).
Proof.
  pose proof (appendRows_rows_eq values newValues pos) as Hrows.
  unfold appendRows in *. cbv zeta in *. simpl in *.
  rewrite bool_decide_eq_false_2 in * by lia.
  destruct (merge_rows_spec (rows values) pos (rows newValues)
              (slice_before (rows values) (Z.of_nat pos)) [])
    as (ws' & E & Hnew & Hall).
  rewrite E in *. simpl in *. split; [done |].
  eapply List.Forall_impl; [| exact Hall].
  intros w (Hj & Hrow & Hname & Hfirst). split_and!; try done.
  rewrite Hrows. rewrite !elem_of_app. right. right.
  apply list_elem_of_lookup. exists (index w - pos)%nat.
  rewrite lookup_drop. by replace (pos + (index w - pos))%nat with (index w) by lia.
Qed.

Lemma filter_none {A : Type} (P : A → Prop) `{!∀ x, Decision (P x)} (l : list A) :
  (∀ x, x ∈ l → ¬ P x) → filter P l = [].
Proof.
  induction l as [|x l IH]; intros Hall; [done |].
  rewrite filter_cons_False by (apply Hall, elem_of_cons; by left).
  apply IH. intros y Hy. apply Hall, elem_of_cons. by right.
Qed.

(** Loading the same rows for the same position once more changes nothing
    in the list: every one of them is present by then. *)
Theorem appendRows_again (values newValues : query_values (R := R) (Q := Q))
    (pos : nat) :
  (pos ≤ length (rows values))%nat →
  let r := appendRows name_of values newValues (Z.of_nat pos) in
  rows (values_after (appendRows name_of (values_after r) newValues (Z.of_nat pos)))
  = rows (values_after r).
Proof.
  intros Hpos r. rewrite appendRows_rows_eq.
  subst r. rewrite appendRows_rows_eq.
  set (ex := rows values) in *. set (news := rows newValues).
  set (F := filter (λ new, ¬ present name_of ex pos new) news).
  assert (Hdrop : drop pos (take pos ex ++ F ++ drop pos ex) = F ++ drop pos ex).
  { rewrite drop_app_length'; [done |]. rewrite length_take. lia. }
  assert (Hnone : filter (λ new, ¬ present name_of (take pos ex ++ F ++ drop pos ex) pos new)
                    news = []).
  { apply filter_none. intros new Hin Habs.
    apply Habs. unfold present. rewrite Hdrop.
    change (map name_of (F ++ drop pos ex)) with (name_of <$> (F ++ drop pos ex)).
    rewrite fmap_app, elem_of_app.
    destruct (decide (present name_of ex pos new)) as [Hp|Hn]; [by right |].
    left. apply list_elem_of_fmap_2. by apply list_elem_of_filter. }
  rewrite Hnone. simpl. apply take_drop.
Qed.

Lemma search_from_defined (rest : list R) (newName : option Nm) (j : nat) :
  search_from name_of j rest newName ≠ WriteToUndefined.
Proof.
  revert j. induction rest as [|existing rest IH]; intros j; simpl; [done |].
  case_bool_decide; [done | apply IH].
Qed.

Lemma merge_rows_negative (existingRows : list R) (pos : Z) (newRows : list R) :
  (pos < 0)%Z →
  ∀ newArray ws,
    (merge_rows name_of existingRows pos newRows newArray ws).2 = true ↔
    ∃ new, new ∈ newRows ∧ name_of new = None.
Proof.
  intros Hpos. induction newRows as [|new newRows IH]; intros newArray ws.
  - simpl. split; [discriminate |]. intros (new & Hin & _). by apply elem_of_nil in Hin.
  - assert (Hrest : name_of new ≠ None →
              (∃ new0, new0 ∈ new :: newRows ∧ name_of new0 = None) ↔
              ∃ new0, new0 ∈ newRows ∧ name_of new0 = None).
    { intros Hnew. split.
      - intros (n0 & Hin & Hn0). apply elem_of_cons in Hin as [-> | Hin]; [done |].
        by exists n0.
      - intros (n0 & Hin & Hn0). exists n0. split; [| done].
        apply elem_of_cons. by right. }
    cbn [merge_rows]. unfold search. rewrite bool_decide_eq_false_2 by lia.
    change (get name_of (Some new)) with (name_of new).
    change (get name_of None) with (@None Nm).
    case_bool_decide as E.
    + split; [| done]. intros _. exists new.
      split; [apply elem_of_cons; by left | done].
    + rewrite Hrest by done.
      pose proof (search_from_defined existingRows (name_of new) 0) as Hdef.
      destruct (search_from _ _ _ _); [apply IH | apply IH | done].
Qed.

(** For a negative position other than -1 the rows [existingRows[j]] with
    negative [j] are [undefined]: the action throws a TypeError exactly when
    one of the loaded rows has no name, and then it has already replaced the
    query config while the list of rows is what it was. *)
Theorem appendRows_negative_position
    (values newValues : query_values (R := R) (Q := Q)) (pos : Z) :
  (pos < -1)%Z →
  let r := appendRows name_of values newValues pos in
  (threw r = true ↔ ∃ new, new ∈ rows newValues ∧ name_of new = None) ∧
  (threw r = true →
   rows (values_after r) = rows values ∧
   queryConfig (values_after r) = queryConfig newValues).
Proof.
  intros Hpos. unfold appendRows. cbv zeta. simpl.
  rewrite bool_decide_eq_false_2 by lia.
  pose proof (merge_rows_negative (rows values) pos (rows newValues) ltac:(lia)
                (slice_before (rows values) pos) []) as Hm.
  destruct (merge_rows _ _ _ _ _ _) as [[newArray ws] thrown]. simpl in Hm.
  destruct thrown; simpl.
  - split; [by rewrite <- Hm |]. done.
  - split; [by rewrite <- Hm |]. discriminate.
Qed.

End AppendRowsFacts.

Lemma appendRows_again_witness :
  rows (values_after
          (appendRows example_name
             (values_after (appendRows example_name rows_loaded rows_fresh 1%Z))
             rows_fresh 1%Z))
  = rows (values_after (appendRows example_name rows_loaded rows_fresh 1%Z)).
Proof.
  apply (appendRows_again example_name rows_loaded rows_fresh 1%nat).
  simpl. lia.
Defined.

Lemma appendRows_negative_position_witness :
  (threw (appendRows example_name rows_loaded rows_fresh (-2)%Z) = true ↔
   ∃ new, new ∈ rows rows_fresh ∧ example_name new = None) ∧
  (threw (appendRows example_name rows_loaded rows_fresh (-2)%Z) = true →
   rows (values_after (appendRows example_name rows_loaded rows_fresh (-2)%Z))
   = rows rows_loaded ∧
   queryConfig (values_after (appendRows example_name rows_loaded rows_fresh (-2)%Z))
   = queryConfig rows_fresh).
Proof.
  apply (appendRows_negative_position example_name rows_loaded rows_fresh (-2)%Z).
  lia.
Defined.

(** The example at work: "b" is there already, so only "c" and the row
    without a name are inserted after "a"; the fresher "b" is written into
    property 1 of the old "b". *)
Example appendRows_example :
  let r := appendRows example_name rows_loaded rows_fresh 1%Z in
  rows (values_after r)
  = [(Some "a", 1%Z); (Some "c", 2%Z); (None, 2%Z); (Some "b", 1%Z)] ∧
  writes r = [{| existingRow := (Some "b", 1%Z); index := 1; newRow := (Some "b", 2%Z) |}] ∧
  queryConfig (values_after r) = 2%Z.
Proof. split_and!; vm_compute; reflexivity. Qed.

(** * GraphQL variables *)

Section ConvertInputFacts.

Context {T V W : Type}.
Variable convert : T → V → bool → option W.

Lemma convertInput_loop_converted (varTypes : gmap string T)
    (variables : list (string * V)) :
  ∀ out0 out,
    convertInput_loop convert varTypes variables out0 = Converted out →
    NoDup variables.*1 →
    (∀ name value, (name, value) ∈ variables →
       ∃ varType w, varTypes !! name = Some varType ∧
                    convert varType value false = Some w ∧ out !! name = Some w) ∧
    (∀ name, name ∉ variables.*1 → out !! name = out0 !! name).
Proof.
  induction variables as [|[n v] rest IH]; intros out0 out; simpl.
  - intros [= <-] _. split; [| done]. intros name value Hin. by apply elem_of_nil in Hin.
  - destruct (varTypes !! n) as [t|] eqn:Ht; [| discriminate].
    destruct (convert t v false) as [w|] eqn:Hw; [| discriminate].
    intros Hloop Hnd. apply list.NoDup_cons in Hnd as [Hn Hnd].
    destruct (IH _ _ Hloop Hnd) as [Hin Hout]. split.
    + intros name value Hmem. apply elem_of_cons in Hmem as [[= -> ->]|Hmem].
      * exists t, w. split_and!; [done | done |].
        rewrite (Hout n Hn). apply lookup_insert_eq.
      * by apply Hin.
    + intros name Hname. apply not_elem_of_cons in Hname as [Hne Hname].
      rewrite (Hout name Hname). by apply lookup_insert_ne.
Qed.

(** When [convertInput] returns an object for variables with distinct names,
    the object has exactly the names of the variables, and under each name
    the value of that variable converted with its declared type, towards the
    wire. *)
Theorem convertInput_converted (varTypes : gmap string T)
    (variables : list (string * V)) (out : gmap string W) :
  NoDup variables.*1 →
  convertInput convert varTypes (Some variables) = Converted out →
  dom out = list_to_set variables.*1 ∧
  ∀ name value, (name, value) ∈ variables →
    ∃ varType w, varTypes !! name = Some varType ∧
                 convert varType value false = Some w ∧ out !! name = Some w.
Proof.
  intros Hnd Hconv.
  destruct (convertInput_loop_converted varTypes variables ∅ out Hconv Hnd)
    as [Hin Hout].
  split; [| done]. apply set_eq. intros name.
  rewrite elem_of_dom, elem_of_list_to_set. split.
  - intros [w Hw]. destruct (decide (name ∈ variables.*1)) as [|Hn]; [done |].
    rewrite (Hout name Hn), lookup_empty in Hw. discriminate.
  - intros Hname. apply list_elem_of_fmap in Hname as ([n v] & -> & Hmem).
    destruct (Hin n v Hmem) as (t & w & _ & _ & Hw). by exists w.
Qed.

Lemma convertInput_loop_invalid (varTypes : gmap string T)
    (variables : list (string * V)) (name : string) :
  ∀ out0,
    convertInput_loop convert varTypes variables out0 = InvalidVariable name ↔
    ∃ before value after,
      variables = before ++ (name, value) :: after ∧
      varTypes !! name = None ∧
      Forall (λ nv, ∃ varType w, varTypes !! nv.1 = Some varType ∧
                                 convert varType nv.2 false = Some w) before.
Proof.
  induction variables as [|[n v] rest IH]; intros out0; simpl.
  - split; [discriminate |]. intros (before & value & after & E & _).
    by destruct before.
  - destruct (varTypes !! n) as [t|] eqn:Ht.
    + destruct (convert t v false) as [w|] eqn:Hw.
      * rewrite IH. split.
        -- intros (before & value & after & -> & Hnone & Hall).
           exists ((n, v) :: before), value, after. split_and!; [done | done |].
           constructor; [| done]. by exists t, w.
        -- intros (before & value & after & E & Hnone & Hall).
           destruct before as [|[n' v'] before]; simpl in E.
           ++ injection E as -> -> ->. congruence.
           ++ injection E as -> -> ->. inversion Hall; subst.
              by exists before, value, after.
      * split; [discriminate |].
        intros (before & value & after & E & Hnone & Hall).
        destruct before as [|[n' v'] before]; simpl in E.
        -- injection E as -> -> ->. congruence.
        -- injection E as -> -> ->. inversion Hall as [|? ? (t' & w' & Ht' & Hw') _]; subst.
           simpl in *. congruence.
    + split.
      * intros [= ->]. exists [], v, rest. by split_and!.
      * intros (before & value & after & E & Hnone & Hall).
        destruct before as [|[n' v'] before]; simpl in E.
        -- by injection E as -> -> ->.
        -- injection E as -> -> ->. inversion Hall as [|? ? (t' & w' & Ht' & _) _]; subst.
           simpl in *. congruence.
Qed.

(** [convertInput] throws "Cannot convert invalid variable" for a name
    exactly when that name is the first variable, in the order of
    enumeration, that has no declared type, and every variable before it has
    been converted. *)
Theorem convertInput_invalid_variable (varTypes : gmap string T)
    (variables : list (string * V)) (name : string) :
  convertInput convert varTypes (Some variables) = InvalidVariable name ↔
  ∃ before value after,
    variables = before ++ (name, value) :: after ∧
    varTypes !! name = None ∧
    Forall (λ nv, ∃ varType w, varTypes !! nv.1 = Some varType ∧
                               convert varType nv.2 false = Some w) before.
Proof. apply convertInput_loop_invalid. Qed.

End ConvertInputFacts.

(** * The configuration object *)

(** The check of the key is without effect: for every property, also one
    that is no option at all, the [set] trap is the assignment to the target
    and the [get] trap is the read from it (or the list of keys, for "keys");
    "Invalid config key" is never thrown. *)
Theorem config_key_never_invalid {V Target : Type} (read : Target → property → V)
    (write : Target → property → V → option Target) (DEFAULT_OPTS : list string)
    (st : config_state (Target := Target)) (p : property) (value : V) :
  config_set write DEFAULT_OPTS st p value
  = match write (target st) p value with
    | Some t => SetDone {| VALID_KEYS := VALID_KEYS st; target := t |}
    | None => SetTypeError
    end ∧
  config_get read DEFAULT_OPTS st p
  = if bool_decide (p = PString "keys") then Keys (VALID_KEYS st)
    else Got (read (target st) p).
Proof. split; reflexivity. Qed.

Lemma convertInput_converted_witness :
  dom (<["id" := "Int:5"]> (∅ : gmap string string))
  = list_to_set [("id", 5%Z)].*1 ∧
  ∀ name value, (name, value) ∈ [("id", 5%Z)] →
    ∃ varType w, ({["id" := "Int"]} : gmap string string) !! name = Some varType ∧
                 example_convert varType value false = Some w ∧
                 <["id" := "Int:5"]> (∅ : gmap string string) !! name = Some w.
Proof.
  apply (convertInput_converted example_convert {["id" := "Int"]} [("id", 5%Z)]
           (<["id" := "Int:5"]> ∅)).
  - apply (bool_decide_unpack _). vm_compute. exact I.
  - vm_compute. reflexivity.
Defined.
